(** * Cranberry B-tree: the insertion path of [src/lib/insert.c]

    A shallow embedding of [bt_insert_helper], [split_full_root] and
    [bt_split_child].

    - Memory.  Nodes are exclusively owned by their parent, so the heap
      reachable from [bt->root] is a tree and is modelled as a tree value; an
      in-place mutation of a node becomes a functional update that is
      written back into the slot the node was read from.  C arrays are lists
      of pointers ([None] is [NULL]) whose length is the allocated size: an
      access outside of it, or a dereference of [NULL], is the outcome
      [Fault].
    - Helpers.  insert.c includes lib.h and calls [bt_create_node],
      [is_full_node], [is_leaf], [is_root], [get_next_node_index],
      [node_insert_entry] and [ceil_fn], none of which it defines.  They are
      modelled from the spec, each under a comment that says so; the array
      sizes [bt_create_node] allocates are left as parameters.
    - Recursion.  [bt_insert_helper] calls itself; the model takes fuel, and
      termination is the statement that enough fuel never runs out. *)

From Stdlib Require Import ZArith Lia QArith.QArith_base QArith.Qround.
From stdpp Require Import base tactics option list.

Set Warnings "-register-all".
Local Open Scope Z_scope.

(** ** Outcomes *)

Inductive result (A : Type) : Type :=
| Done (a : A)
| Fault
| OutOfFuel.
Arguments Done {A} a.
Arguments Fault {A}.
Arguments OutOfFuel {A}.

#[global] Instance result_bind : MBind result :=
  fun A B (k : A -> result B) (m : result A) =>
    match m with
    | Done a => k a
    | Fault => Fault
    | OutOfFuel => OutOfFuel
    end.

(** ** Data *)

(** [cbt_entry_t]: a key and the pointer to the stored object. *)
Record cbt_entry_t : Type := Entry { key : Z; object : Z }.

(** [cbt_node_t]: the [entry] array, the [children] array and [len]. *)
Inductive cbt_node_t : Type :=
  Node { entry : list (option cbt_entry_t);
         children : list (option cbt_node_t);
         len : Z }.

(** The fields of [cranbtree_t] that insert.c reads or writes. *)
Record cranbtree_t : Type :=
  Tree { root : option cbt_node_t; n : Z; max_key : Z; min_key : Z }.

Definition set_entry (nd : cbt_node_t) (e : list (option cbt_entry_t)) :=
  Node e (children nd) (len nd).
Definition set_children (nd : cbt_node_t) (c : list (option cbt_node_t)) :=
  Node (entry nd) c (len nd).
Definition set_len (nd : cbt_node_t) (l : Z) :=
  Node (entry nd) (children nd) l.

(** ** Arrays *)

(** [a[i]] as an rvalue. *)
Definition arr_get {A : Type} (a : list (option A)) (i : Z) : result (option A) :=
  if 0 <=? i then
    match a !! Z.to_nat i with
    | Some x => Done x
    | None => Fault
    end
  else Fault.

(** [a[i] = x]. *)
Definition arr_set {A : Type} (a : list (option A)) (i : Z) (x : option A)
  : result (list (option A)) :=
  if (0 <=? i) && (i <? Z.of_nat (length a)) then Done (<[Z.to_nat i := x]> a)
  else Fault.

(** The entries an array holds: its populated slots, in order. *)
Fixpoint populated {A : Type} (a : list (option A)) : list A :=
  match a with
  | [] => []
  | Some x :: a' => x :: populated a'
  | None :: a' => populated a'
  end.

Definition populated_slot {A : Type} (o : option A) : bool :=
  match o with
  | Some _ => true
  | None => false
  end.

Definition empty_slot {A : Type} (o : option A) : bool := negb (populated_slot o).

(** Height of the tree below a node (a node without children has height 1). *)
Fixpoint height (nd : cbt_node_t) : nat :=
  match nd with
  | Node _ cs _ =>
      S ((fix hs (l : list (option cbt_node_t)) : nat :=
            match l with
            | [] => O
            | None :: l' => hs l'
            | Some c :: l' => Nat.max (height c) (hs l')
            end) cs)
  end.

(** The same maximum over an array of children, as a function of its own. *)
Fixpoint heights (l : list (option cbt_node_t)) : nat :=
  match l with
  | [] => O
  | None :: l' => heights l'
  | Some c :: l' => Nat.max (height c) (heights l')
  end.

Definition height_opt (c : option cbt_node_t) : nat :=
  match c with
  | None => O
  | Some c => height c
  end.

(** ** Helpers declared in lib.h *)

(** Modelled from the spec: [ceil_fn] is not part of insert.c; the spec says
    [borrow = ceil(n / 2)].  The argument is the exact quotient the C code
    computes in [double]. *)
Definition ceil_fn (q : Q) : Z := Qceiling q.

(** [borrow_n] of [bt_split_child]: [ceil_fn(((double)n) / 2.0)]. *)
Definition borrow_n (n : Z) : Z := ceil_fn (Qdiv (inject_Z n) (inject_Z 2)).

(** Modelled from the spec: [is_full_node] is not part of insert.c;
    "is_full(node, n): true iff count == n-1". *)
Definition is_full_node (nd : cbt_node_t) (n : Z) : bool := len nd =? n - 1.

(** Modelled from the spec: [is_leaf] is not part of insert.c;
    "is_leaf_position(childRef): true iff the reference is absent". *)
Definition is_leaf (c : option cbt_node_t) : bool :=
  match c with
  | None => true
  | Some _ => false
  end.

(** Modelled from the spec: [get_next_node_index] is not part of insert.c;
    "locate_child_index(node, key, n): returns the index i such that key
    belongs before entries[i] (or the last valid index if key is greater than
    all entries)".  A key equal to an entry's key belongs after it (keys
    under children[i+1] are >= the entry's key).  Reading the key of an
    empty slot dereferences [NULL]. *)
Fixpoint next_index_from (cnt : nat) (i : Z) (a : list (option cbt_entry_t)) (k : Z)
  : result Z :=
  match cnt with
  | O => Done i
  | S cnt' =>
      e ← arr_get a i;
      match e with
      | None => Fault
      | Some x => if k <? key x then Done i else next_index_from cnt' (i + 1) a k
      end
  end.

Definition get_next_node_index (nd : cbt_node_t) (k : Z) (n : Z) : result Z :=
  next_index_from (Z.to_nat (len nd)) 0 (entry nd) k.

(** Opens slot [p] of an array whose first [cnt] slots are in use: the
    slots [p .. cnt-1] move down by one and [x] is stored at [p]. *)
Definition shift_in {A : Type} (a : list (option A)) (p cnt : Z) (x : option A)
  : result (list (option A)) :=
  if (0 <=? p) && (p <=? cnt) && (cnt <? Z.of_nat (length a)) then
    Done (take (Z.to_nat p) a ++ x :: take (Z.to_nat (cnt - p)) (drop (Z.to_nat p) a)
            ++ drop (Z.to_nat (cnt + 1)) a)
  else Fault.

(** Modelled from the spec: [node_insert_entry] is not part of insert.c;
    "insert_sorted(node, entry, allowSplitBookkeeping, n): inserts entry
    into the node's entry sequence at the correct sorted position, shifting
    subsequent entries and (when true) their associated child-slot down by
    one ...; returns the index at which the entry landed", "undefined if
    node is already full".  The child slot right of the new entry is left
    absent; a full node is a [Fault]. *)
Definition node_insert_entry (nd : cbt_node_t) (e : cbt_entry_t) (shift : bool) (n : Z)
  : result (cbt_node_t * Z) :=
  if is_full_node nd n then Fault
  else
    p ← get_next_node_index nd (key e) n;
    es ← shift_in (entry nd) p (len nd) (Some e);
    cs ← (if shift then shift_in (children nd) (p + 1) (len nd + 1) None
          else Done (children nd));
    Done (Node es cs (len nd + 1), p).

Section Alloc.

(** The sizes [bt_create_node] allocates for the two arrays; the allocator
    is not part of insert.c. *)
Variable entry_cap child_cap : Z -> nat.

(** Modelled from the spec: [bt_create_node] is not part of insert.c;
    "allocates a Node with count = 0, all entry and child slots empty". *)
Definition bt_create_node (n : Z) : cbt_node_t :=
  Node (replicate (entry_cap n) None) (replicate (child_cap n) None) 0.

(** [bt_create_node] allocates at least the documented [n - 1] entry
    slots and [n] child slots. *)
Definition alloc_ok (n : Z) : Prop :=
  n - 1 <= Z.of_nat (entry_cap n) /\ n <= Z.of_nat (child_cap n).

(** ** [bt_split_child] *)

(** The copy loop of [bt_split_child]; [k] counts the remaining
    iterations [n - i]. *)
Fixpoint split_loop (k : nat) (i new_node_itr : Z) (node new_node : cbt_node_t)
  : result (cbt_node_t * cbt_node_t) :=
  match k with
  | O => Done (node, new_node)
  | S k' =>
      e ← arr_get (entry node) i;
      ne ← arr_set (entry new_node) new_node_itr e;
      let new_node := set_entry new_node ne in
      let new_node_itr := new_node_itr + 1 in
      c ← arr_get (children node) (i + 1);
      nc ← arr_set (children new_node) new_node_itr c;
      let new_node := set_children new_node nc in
      oe ← arr_set (entry node) i None;
      let node := set_entry node oe in
      oc ← arr_set (children node) (i + 1) None;
      let node := set_children node oc in
      split_loop k' (i + 1) new_node_itr node new_node
  end.

(** Returns the node as it is left in place, [*splitted_node] and the
    returned entry pointer. *)
Definition bt_split_child (node : cbt_node_t) (n : Z)
  : result (cbt_node_t * option cbt_node_t * option cbt_entry_t) :=
  if negb (is_full_node node n) then Done (node, None, None)
  else
    let new_node := bt_create_node n in
    let borrow_n := borrow_n n in
    let new_node_itr := 0 in
    c ← arr_get (children node) borrow_n;
    nc ← arr_set (children new_node) 0 c;
    let new_node := set_children new_node nc in
    oc ← arr_set (children node) borrow_n None;
    let node := set_children node oc in
    '(node, new_node) ← split_loop (Z.to_nat (n - borrow_n)) borrow_n
                                     new_node_itr node new_node;
    let new_node := set_len new_node (Z.quot n 2) in
    let node := set_len node (Z.quot n 2) in
    e ← arr_get (entry node) (borrow_n - 1);
    oe ← arr_set (entry node) (borrow_n - 1) None;
    let node := set_entry node oe in
    Done (node, Some new_node, e).

(** ** [split_full_root] *)

(** The pointer [split_full_root] returns: the old root (as it is left in
    place) or a node it has just created. *)
Inductive root_split : Type :=
| Same (old_root : cbt_node_t)
| Grown (new_root : cbt_node_t).

Definition split_full_root (old_root : cbt_node_t) (n : Z) : result root_split :=
  '(old_root, splitted_node, root_entry) ← bt_split_child old_root n;
  match root_entry with
  | Some root_entry =>
      let new_root := bt_create_node n in
      '(new_root, _) ← node_insert_entry new_root root_entry true n;
      c0 ← arr_set (children new_root) 0 (Some old_root);
      let new_root := set_children new_root c0 in
      c1 ← arr_set (children new_root) 1 splitted_node;
      let new_root := set_children new_root c1 in
      Done (Grown new_root)
  | None => Done (Same old_root)
  end.

(** ** [bt_insert_helper] *)

(** What one activation of [bt_insert_helper] does before it returns or
    calls itself. *)
Inductive step : Type :=
| Restart (new_root : cbt_node_t)
| Inserted (root : cbt_node_t)
| Descend (root : cbt_node_t) (child_index : Z).

(** What a call has done when it returns: it has mutated the node it was
    given in place, or it has run the first-insertion branch, which assigns
    [bt->root], [bt->max_key] and [bt->min_key]. *)
Inductive effect : Type :=
| InPlace (root : cbt_node_t)
| Reset (root : cbt_node_t) (k : Z).

Definition set_root (bt : cranbtree_t) (r : cbt_node_t) : cranbtree_t :=
  Tree (Some r) (n bt) (max_key bt) (min_key bt).

(** The body of [bt_insert_helper] for a node that is not [NULL].
    [at_root] is the value of [is_root(bt, root)]: the heap is a tree, so
    [root == bt->root] holds exactly in the call made on [bt->root].  The
    child that [bt_split_child] has mutated in place is written back into
    the slot it was read from. *)
Definition bt_insert_helper_body (bt : cranbtree_t) (at_root : bool)
    (root : cbt_node_t) (entry : cbt_entry_t) : result step :=
  r ← (if at_root then split_full_root root (n bt) else Done (Same root));
  match r with
  | Grown new_root => Done (Restart new_root)
  | Same root =>
      child_index ← get_next_node_index root (key entry) (n bt);
      c ← arr_get (children root) child_index;
      if is_leaf c then
        '(root, _) ← node_insert_entry root entry true (n bt);
        Done (Inserted root)
      else
        child ← (match c with Some child => Done child | None => Fault end);
        '(child, splitted_node, median_entry) ← bt_split_child child (n bt);
        cs ← arr_set (children root) child_index (Some child);
        let root := set_children root cs in
        match median_entry with
        | Some median_entry =>
            '(root, splitted_node_ptr_index) ←
               node_insert_entry root median_entry true (n bt);
            cs ← arr_set (children root) splitted_node_ptr_index splitted_node;
            let root := set_children root cs in
            child_index ← get_next_node_index root (key entry) (n bt);
            Done (Descend root child_index)
        | None => Done (Descend root child_index)
        end
  end.

Fixpoint bt_insert_helper (fuel : nat) (bt : cranbtree_t) (at_root : bool)
    (root : option cbt_node_t) (entry : cbt_entry_t) : result effect :=
  match root with
  | None =>
      let root := bt_create_node (n bt) in
      '(root, _) ← node_insert_entry root entry true (n bt);
      Done (Reset root (key entry))
  | Some root =>
      match fuel with
      | O => OutOfFuel
      | S fuel' =>
          s ← bt_insert_helper_body bt at_root root entry;
          match s with
          | Restart new_root =>
              bt_insert_helper fuel' (set_root bt new_root) true (Some new_root) entry
          | Inserted root => Done (InPlace root)
          | Descend root child_index =>
              c ← arr_get (children root) child_index;
              eff ← bt_insert_helper fuel' bt false c entry;
              match eff with
              | InPlace c' =>
                  cs ← arr_set (children root) child_index (Some c');
                  Done (InPlace (set_children root cs))
              | Reset r k => Done (Reset r k)
              end
          end
      end
  end.


(** The tree after the call [bt_insert_helper(bt, bt->root, entry)]. *)
Definition commit (bt : cranbtree_t) (eff : effect) : cranbtree_t :=
  match eff with
  | InPlace r => Tree (Some r) (n bt) (max_key bt) (min_key bt)
  | Reset r k => Tree (Some r) (n bt) k k
  end.

Definition insert (fuel : nat) (bt : cranbtree_t) (entry : cbt_entry_t)
  : result cranbtree_t :=
  eff ← bt_insert_helper fuel bt true (root bt) entry;
  Done (commit bt eff).


End Alloc.

(** ** The data model's reading of [len] *)

(** [len] counts the populated entries: the first [len] entry slots are
    populated, the remaining ones are empty, and so is every child slot
    after the first [len + 1]. *)
Definition count_ok (nd : cbt_node_t) : bool :=
  (0 <=? len nd)
  && forallb populated_slot (take (Z.to_nat (len nd)) (entry nd))
  && forallb empty_slot (drop (Z.to_nat (len nd)) (entry nd))
  && forallb empty_slot (drop (S (Z.to_nat (len nd))) (children nd)).

(** The array sizes under which [bt_split_child] stays in range. *)
Definition room_to_split (nd : cbt_node_t) (n : Z) : Prop :=
  n <= Z.of_nat (length (entry nd)) /\ n + 1 <= Z.of_nat (length (children nd)).

(** The array sizes the spec documents: [n - 1] entries and [n] children. *)
Definition documented_capacity (nd : cbt_node_t) (n : Z) : Prop :=
  Z.of_nat (length (entry nd)) = n - 1 /\ Z.of_nat (length (children nd)) = n.

(** ** The structural invariants of the data model *)

(** [ks] is strictly ascending and, when [lo] is given, above it. *)
Fixpoint ascending_from (lo : option Z) (ks : list Z) : bool :=
  match ks with
  | [] => true
  | k :: ks' =>
      match lo with
      | Some a => a <? k
      | None => true
      end && ascending_from (Some k) ks'
  end.

(** [lo <= k < hi], for the bounds that are given. *)
Definition within (lo hi : option Z) (k : Z) : bool :=
  match lo with
  | Some a => a <=? k
  | None => true
  end
  && match hi with
     | Some b => k <? b
     | None => true
     end.

(** The invariants of a node and of everything below it, for keys bounded
    by [lo] (inclusive) and [hi] (exclusive): [len] is within [0, n-1] and
    counts the populated entries; the keys are strictly ascending; the node
    has no child at all, or exactly [len + 1] children, child [i] holding
    keys below key [i] and child [i + 1] keys not below it. *)
Fixpoint node_inv (n : Z) (lo hi : option Z) (nd : cbt_node_t) : bool :=
  match nd with
  | Node E C l =>
      let ks := map key (populated E) in
      (0 <=? l) && (l <=? n - 1) && count_ok (Node E C l)
      && ascending_from None ks && forallb (within lo hi) ks
      && (forallb empty_slot (take (S (Z.to_nat l)) C)
          || (fix kids (cs : list (option cbt_node_t)) (lo : option Z) (ks : list Z)
                : bool :=
                match cs, ks with
                | Some c :: cs', k :: ks' =>
                    node_inv n lo (Some k) c && kids cs' (Some k) ks'
                | Some c :: cs', [] => node_inv n lo hi c && forallb empty_slot cs'
                | _, _ => false
                end) C lo ks)
  end.

Definition tree_inv (bt : cranbtree_t) : bool :=
  match root bt with
  | None => true
  | Some r => node_inv (n bt) None None r
  end.

(** ** A node without children, as a sorted list *)

(** Where [get_next_node_index] sends key [k] among the entries [s]. *)
Fixpoint pos (k : Z) (s : list cbt_entry_t) : nat :=
  match s with
  | [] => O
  | x :: s' => if k <? key x then O else S (pos k s')
  end.

(** [s] with [e] inserted at that position. *)
Fixpoint place (e : cbt_entry_t) (s : list cbt_entry_t) : list cbt_entry_t :=
  match s with
  | [] => [e]
  | x :: s' => if key e <? key x then e :: x :: s' else x :: place e s'
  end.

(** The node holding the entries [s] in arrays of [ec] and [cc] slots. *)
Definition leaf_node (ec cc : nat) (s : list cbt_entry_t) : cbt_node_t :=
  Node ((Some <$> s) ++ replicate (ec - length s) None) (replicate cc None)
       (Z.of_nat (length s)).

(** ** Concrete nodes and trees *)

(** The array sizes the loop of [bt_split_child] needs, [n] entries and
    [n + 1] children, and the sizes the spec documents. *)
Definition loop_entry_cap (n : Z) : nat := Z.to_nat n.
Definition loop_child_cap (n : Z) : nat := Z.to_nat (n + 1).
Definition documented_entry_cap (n : Z) : nat := Z.to_nat (n - 1).
Definition documented_child_cap (n : Z) : nat := Z.to_nat n.

Definition entry_of (k : Z) : cbt_entry_t := Entry k 0.

(** Nodes of order 3 without children. *)
Definition leaf3 (ks : list Z) : cbt_node_t :=
  leaf_node 3 4 (map entry_of ks).

(** A full node of order 3 in arrays of the documented sizes. *)
Definition full3_documented : cbt_node_t :=
  Node [Some (entry_of 10); Some (entry_of 20)] [None; None; None] 2.

(** A full node of order 4 with its four children. *)
Definition full4 : cbt_node_t :=
  Node [Some (entry_of 10); Some (entry_of 20); Some (entry_of 30); None]
       [Some (leaf_node 4 5 [entry_of 5]); Some (leaf_node 4 5 [entry_of 15]);
        Some (leaf_node 4 5 [entry_of 25]); Some (leaf_node 4 5 [entry_of 35]);
        None]
       3.

Definition tree_single : cranbtree_t := Tree (Some (leaf3 [10])) 3 10 10.

(** Order 3: root [20] over [5, 10] (full) and [30]. *)
Definition tree_left_full : cranbtree_t :=
  Tree (Some (Node [Some (entry_of 20); None; None]
                   [Some (leaf3 [5; 10]); Some (leaf3 [30]); None; None] 1))
       3 30 5.


(** Order 3: root [20] over [10] and [30], no node full. *)
Definition root_spare : cbt_node_t :=
  Node [Some (entry_of 20); None; None]
       [Some (leaf3 [10]); Some (leaf3 [30]); None; None] 1.
Definition tree_spare : cranbtree_t := Tree (Some root_spare) 3 30 10.

(** The root of [tree_left_full] and an empty tree of order 3. *)
Definition root_left_full : cbt_node_t :=
  Node [Some (entry_of 20); None; None]
       [Some (leaf3 [5; 10]); Some (leaf3 [30]); None; None] 1.
Definition tree_empty : cranbtree_t := Tree None 3 0 0.

(** ** The entries below a node, in order *)

(** Child 0, entry 0, child 1, entry 1, ...: [subs] are the sequences of
    the child slots (empty for an absent child), [es] is the entry array. *)
Fixpoint interleave (subs : list (list cbt_entry_t)) (es : list (option cbt_entry_t))
  : list cbt_entry_t :=
  match subs with
  | [] => populated es
  | s :: subs' =>
      s ++ match es with
           | [] => interleave subs' []
           | e :: es' => populated [e] ++ interleave subs' es'
           end
  end.

(** Every entry reachable from a node, children and entries taken slot by
    slot whatever [len] says. *)
Fixpoint inorder (nd : cbt_node_t) : list cbt_entry_t :=
  match nd with
  | Node E C _ =>
      interleave ((fix subs (cs : list (option cbt_node_t)) : list (list cbt_entry_t) :=
                     match cs with
                     | [] => []
                     | None :: cs' => [] :: subs cs'
                     | Some c :: cs' => inorder c :: subs cs'
                     end) C) E
  end.

Definition inorder_opt (c : option cbt_node_t) : list cbt_entry_t :=
  match c with
  | None => []
  | Some c => inorder c
  end.

(** ** Trees in which no node needs a split *)

Definition spare_opt (spare : cbt_node_t -> bool) (c : option cbt_node_t) : bool :=
  match c with
  | None => true
  | Some c => spare c
  end.

(** Every node below [nd], [nd] included, has a [len] that counts its
    entries, is not full, and has an unused entry slot and an unused child
    slot after those in use. *)
Fixpoint spare (n : Z) (nd : cbt_node_t) : bool :=
  match nd with
  | Node E C l =>
      count_ok (Node E C l) && (l <? n - 1)
      && (l <? Z.of_nat (length E)) && (l + 1 <? Z.of_nat (length C))
      && (fix all (cs : list (option cbt_node_t)) : bool :=
            match cs with
            | [] => true
            | None :: cs' => all cs'
            | Some c :: cs' => spare n c && all cs'
            end) C
  end.

(** The check [node_inv] makes on the children of a node that has some,
    as a function of its own: [inv] is the check made on each child, [lo]
    the lower bound of the first one and [ks] the keys that separate them. *)
Fixpoint kids_inv (inv : option Z -> option Z -> cbt_node_t -> bool)
    (hi : option Z) (cs : list (option cbt_node_t)) (lo : option Z) (ks : list Z)
  : bool :=
  match cs, ks with
  | Some c :: cs', k :: ks' => inv lo (Some k) c && kids_inv inv hi cs' (Some k) ks'
  | Some c :: cs', [] => inv lo hi c && forallb empty_slot cs'
  | _, _ => false
  end.

(** The bounds of child [i] among the separating keys [ks]. *)
Fixpoint lo_at (lo : option Z) (ks : list Z) (i : nat) : option Z :=
  match i, ks with
  | S i', k :: ks' => lo_at (Some k) ks' i'
  | _, _ => lo
  end.

Definition hi_at (hi : option Z) (ks : list Z) (i : nat) : option Z :=
  match ks !! i with
  | Some k => Some k
  | None => hi
  end.

(** Ordering of optional bounds: [None] is no bound. *)
Definition lower_le (lo lo' : option Z) : Prop :=
  match lo, lo' with
  | None, _ => True
  | Some a, Some a' => a <= a'
  | Some _, None => False
  end.

Definition upper_le (hi' hi : option Z) : Prop :=
  match hi', hi with
  | _, None => True
  | Some b', Some b => b' <= b
  | None, Some _ => False
  end.

(** Every key of [s] is within the bounds. *)
Definition keys_within (lo hi : option Z) (s : list cbt_entry_t) : Prop :=
  Forall (fun x => within lo hi (key x) = true) s.

(** * Proofs *)

(** ** Arrays *)

Lemma arr_get_nat {A : Type} (a : list (option A)) (i : nat) :
  arr_get a (Z.of_nat i) = match a !! i with Some x => Done x | None => Fault end.
Proof.
  unfold arr_get. rewrite Nat2Z.id.
  destruct (Z.leb_spec 0 (Z.of_nat i)); [done | lia].
Qed.

Lemma arr_set_nat {A : Type} (a : list (option A)) (i : nat) (x : option A) :
  (i < length a)%nat -> arr_set a (Z.of_nat i) x = Done (<[i := x]> a).
Proof.
  intros Hi. unfold arr_set. rewrite Nat2Z.id.
  destruct (Z.leb_spec 0 (Z.of_nat i)); [| lia].
  destruct (Z.ltb_spec (Z.of_nat i) (Z.of_nat (length a))); [done | lia].
Qed.

Lemma arr_get_out {A : Type} (a : list (option A)) (i : Z) :
  Z.of_nat (length a) <= i -> arr_get a i = Fault.
Proof.
  intros Hi. unfold arr_get.
  destruct (0 <=? i); [| done].
  rewrite lookup_ge_None_2; [done | lia].
Qed.

(** ** The copy loop *)

Lemma split_loop_spec (k : nat) :
  forall (i itr : nat) E C l NE NC nl,
    (i + k <= length E)%nat -> (S i + k <= length C)%nat ->
    (itr + k <= length NE)%nat -> (S itr + k <= length NC)%nat ->
    split_loop k (Z.of_nat i) (Z.of_nat itr) (Node E C l) (Node NE NC nl) =
    Done (Node (take i E ++ replicate k None ++ drop (i + k) E)
               (take (S i) C ++ replicate k None ++ drop (S i + k) C) l,
          Node (take itr NE ++ take k (drop i E) ++ drop (itr + k) NE)
               (take (S itr) NC ++ take k (drop (S i) C) ++ drop (S itr + k) NC) nl).
Proof.
  induction k as [|k IH]; intros i itr E C l NE NC nl HE HC HNE HNC.
  - simpl. rewrite !Nat.add_0_r, !take_drop. done.
  - destruct (lookup_lt_is_Some_2 E i) as [e He]; [lia |].
    destruct (lookup_lt_is_Some_2 C (S i)) as [c Hc]; [lia |].
    cbn [split_loop]. cbn [entry children len set_entry set_children].
    rewrite arr_get_nat, He. cbn [mbind result_bind].
    rewrite arr_set_nat by lia. cbn [mbind result_bind].
    replace (Z.of_nat i + 1) with (Z.of_nat (S i)) by lia.
    replace (Z.of_nat itr + 1) with (Z.of_nat (S itr)) by lia.
    rewrite arr_get_nat, Hc. cbn [mbind result_bind].
    rewrite arr_set_nat by (cbn; lia). cbn [mbind result_bind].
    rewrite arr_set_nat by lia. cbn [mbind result_bind].
    rewrite arr_set_nat by (cbn; lia). cbn [mbind result_bind].
    unfold set_entry, set_children; cbn [entry children len].
    rewrite IH by (rewrite ?length_insert; lia).
    replace (i + S k)%nat with (S i + k)%nat by lia.
    replace (S i + S k)%nat with (S (S i) + k)%nat by lia.
    replace (itr + S k)%nat with (S itr + k)%nat by lia.
    replace (S itr + S k)%nat with (S (S itr) + k)%nat by lia.
    rewrite (take_S_r _ i None) by (apply list_lookup_insert_eq; lia).
    rewrite (take_S_r _ (S i) None) by (apply list_lookup_insert_eq; lia).
    rewrite (take_S_r _ itr e) by (apply list_lookup_insert_eq; lia).
    rewrite (take_S_r _ (S itr) c) by (apply list_lookup_insert_eq; lia).
    rewrite !take_insert_ge by lia.
    rewrite !drop_insert_lt by lia.
    rewrite (drop_S E e i He), (drop_S C c (S i) Hc).
    rewrite <- !app_assoc. done.
Qed.

(** ** Populated and empty slots *)

Lemma populated_app {A : Type} (a b : list (option A)) :
  populated (a ++ b) = populated a ++ populated b.
Proof.
  induction a as [|[x|] a IH]; cbn; [done | by rewrite IH | done].
Qed.

Lemma populated_replicate {A : Type} (k : nat) :
  populated (replicate k (@None A)) = [].
Proof. induction k; cbn; done. Qed.

Lemma forallb_lookup {A : Type} (f : A -> bool) (l : list A) (i : nat) (x : A) :
  forallb f l = true -> l !! i = Some x -> f x = true.
Proof.
  revert i. induction l as [|y l IH]; intros [|i] Hall Hi; cbn in *; try done.
  - apply andb_prop in Hall as [Hy _]. by inversion Hi; subst.
  - apply andb_prop in Hall as [_ Hl]. eauto.
Qed.

Lemma populated_empty {A : Type} (a : list (option A)) :
  forallb empty_slot a = true -> populated a = [].
Proof.
  induction a as [|[x|] a IH]; cbn; intros H; [done | done | auto].
Qed.

Lemma count_ok_entry_empty nd (i : nat) :
  count_ok nd = true -> (Z.to_nat (len nd) <= i < length (entry nd))%nat ->
  entry nd !! i = Some None.
Proof.
  unfold count_ok. intros H Hi.
  apply andb_prop in H as [H Hc]; apply andb_prop in H as [H He];
  apply andb_prop in H as [H Hp].
  destruct (lookup_lt_is_Some_2 (entry nd) i) as [[x|] Hx]; [lia | | done].
  assert (Hd : drop (Z.to_nat (len nd)) (entry nd) !! (i - Z.to_nat (len nd))%nat
               = Some (Some x)).
  { rewrite lookup_drop, <- Hx. f_equal. lia. }
  by pose proof (forallb_lookup _ _ _ _ He Hd).
Qed.

Lemma count_ok_child_empty nd (j : nat) :
  count_ok nd = true -> (S (Z.to_nat (len nd)) <= j < length (children nd))%nat ->
  children nd !! j = Some None.
Proof.
  unfold count_ok. intros H Hj.
  apply andb_prop in H as [H Hc]; apply andb_prop in H as [H He];
  apply andb_prop in H as [H Hp].
  destruct (lookup_lt_is_Some_2 (children nd) j) as [[x|] Hx]; [lia | | done].
  assert (Hd : drop (S (Z.to_nat (len nd))) (children nd)
                 !! (j - S (Z.to_nat (len nd)))%nat = Some (Some x)).
  { rewrite lookup_drop, <- Hx. f_equal. lia. }
  by pose proof (forallb_lookup _ _ _ _ Hc Hd).
Qed.

Lemma count_ok_entry_populated nd (i : nat) :
  count_ok nd = true -> (i < Z.to_nat (len nd))%nat -> (i < length (entry nd))%nat ->
  exists e, entry nd !! i = Some (Some e).
Proof.
  unfold count_ok. intros H Hi Hl.
  apply andb_prop in H as [H Hc]; apply andb_prop in H as [H He];
  apply andb_prop in H as [H Hp].
  destruct (lookup_lt_is_Some_2 (entry nd) i) as [[x|] Hx]; [lia | eauto |].
  assert (Hd : take (Z.to_nat (len nd)) (entry nd) !! i = Some None).
  { by rewrite lookup_take_lt. }
  by pose proof (forallb_lookup _ _ _ _ Hp Hd).
Qed.

(** ** [bt_split_child] on a full node *)

Lemma borrow_n_half (n : Z) : borrow_n n = (n + 1) / 2.
Proof.
  unfold borrow_n, ceil_fn, Qceiling, Qfloor, Qdiv, Qmult, Qinv, Qopp, inject_Z. cbn.
  Z.div_mod_to_equations. lia.
Qed.

Section Split.

Context (entry_cap child_cap : Z -> nat).

Lemma bt_split_child_not_full nd n :
  is_full_node nd n = false ->
  bt_split_child entry_cap child_cap nd n = Done (nd, None, None).
Proof. intros H. unfold bt_split_child. by rewrite H. Qed.

Lemma bt_split_child_full E C l (n : Z) (N b : nat) :
  n = Z.of_nat N -> (n + 1) / 2 = Z.of_nat b -> (1 <= b)%nat -> (b <= N)%nat ->
  is_full_node (Node E C l) n = true ->
  (N <= length E)%nat -> (S N <= length C)%nat ->
  (N - b <= entry_cap n)%nat -> (S (N - b) <= child_cap n)%nat ->
  exists e, E !! (b - 1)%nat = Some e /\
  bt_split_child entry_cap child_cap (Node E C l) n =
  Done (Node (take (b - 1) E ++ replicate (S (N - b)) None ++ drop N E)
             (take b C ++ replicate (S (N - b)) None ++ drop (S N) C)
             (Z.quot n 2),
        Some (Node (take (N - b) (drop b E) ++ replicate (entry_cap n - (N - b)) None)
                   (take (S (N - b)) (drop b C)
                      ++ replicate (child_cap n - S (N - b)) None)
                   (Z.quot n 2)),
        e).
Proof.
  intros Hn Hb Hb1 HbN Hfull HE HC Hec Hcc.
  destruct (lookup_lt_is_Some_2 E (b - 1)) as [e He]; [lia |].
  destruct (lookup_lt_is_Some_2 C b) as [c Hc]; [lia |].
  exists e. split; [done |].
  unfold bt_split_child. rewrite Hfull. cbn [negb].
  rewrite borrow_n_half, Hb. unfold bt_create_node.
  cbn [entry children len set_entry set_children set_len].
  rewrite arr_get_nat, Hc. cbn [mbind result_bind].
  rewrite (arr_set_nat _ 0) by (rewrite length_replicate; lia).
  cbn [mbind result_bind].
  rewrite arr_set_nat by lia. cbn [mbind result_bind].
  replace (Z.to_nat (n - Z.of_nat b)) with (N - b)%nat by lia.
  unfold set_children; cbn [entry children len].
  change 0 with (Z.of_nat 0).
  rewrite split_loop_spec
    by (rewrite ?length_insert, ?length_replicate; lia).
  cbn [mbind result_bind]. unfold set_len, set_entry; cbn [entry children len].
  replace (Z.of_nat b - 1) with (Z.of_nat (b - 1)) by lia.
  rewrite arr_get_nat.
  rewrite lookup_app_l by (rewrite length_take; lia).
  rewrite lookup_take_lt by lia. rewrite He. cbn [mbind result_bind].
  rewrite arr_set_nat
    by (rewrite !length_app, length_take, length_replicate, length_drop; lia).
  cbn [mbind result_bind]. do 2 f_equal.
  - f_equal.
    + f_equal.
      * replace (b + (N - b))%nat with N by lia.
        rewrite insert_app_l by (rewrite length_take; lia).
        rewrite <- (take_drop (b - 1) (<[(b - 1)%nat:=None]> (take b E))).
        rewrite take_insert_ge by lia. rewrite take_take.
        replace (Nat.min (b - 1) b) with (b - 1)%nat by lia.
        rewrite drop_insert_ge by lia. rewrite Nat.sub_diag.
        rewrite <- app_assoc. f_equal.
        assert (Hd : drop (b - 1) (take b E) = [e]).
        { assert (Hs : take b E = take (b - 1) E ++ [e]).
          { rewrite <- (take_S_r _ _ _ He). f_equal. lia. }
          rewrite Hs. rewrite drop_app_length'; [done |].
          rewrite length_take; lia. }
        rewrite Hd. done.
      * replace (S b + (N - b))%nat with (S N) by lia.
        rewrite (take_S_r _ b None) by (apply list_lookup_insert_eq; lia).
        rewrite take_insert_ge by lia.
        rewrite drop_insert_lt by lia.
        rewrite <- app_assoc. done.
    + f_equal. f_equal.
      * rewrite take_0, app_nil_l. f_equal.
        rewrite Nat.add_0_l, drop_replicate. done.
      * rewrite drop_insert_lt by lia.
        rewrite (take_S_r _ 0 c).
        2:{ apply list_lookup_insert_eq. rewrite length_replicate. lia. }
        rewrite take_0, app_nil_l.
        rewrite drop_insert_lt by lia. rewrite drop_replicate.
        rewrite (drop_S C c b Hc). cbn [take app]. done.
Qed.


Lemma bt_split_child_shape nd (n : Z) :
  3 <= n -> is_full_node nd n = true -> room_to_split nd n ->
  alloc_ok entry_cap child_cap n ->
  exists e, entry nd !! (Z.to_nat (borrow_n n) - 1)%nat = Some e /\
  bt_split_child entry_cap child_cap nd n =
  Done (Node (take (Z.to_nat (borrow_n n) - 1) (entry nd)
                ++ replicate (S (Z.to_nat n - Z.to_nat (borrow_n n))) None
                ++ drop (Z.to_nat n) (entry nd))
             (take (Z.to_nat (borrow_n n)) (children nd)
                ++ replicate (S (Z.to_nat n - Z.to_nat (borrow_n n))) None
                ++ drop (S (Z.to_nat n)) (children nd))
             (Z.quot n 2),
        Some (Node (take (Z.to_nat n - Z.to_nat (borrow_n n))
                      (drop (Z.to_nat (borrow_n n)) (entry nd))
                      ++ replicate (entry_cap n
                                    - (Z.to_nat n - Z.to_nat (borrow_n n))) None)
                   (take (S (Z.to_nat n - Z.to_nat (borrow_n n)))
                      (drop (Z.to_nat (borrow_n n)) (children nd))
                      ++ replicate (child_cap n
                                    - S (Z.to_nat n - Z.to_nat (borrow_n n))) None)
                   (Z.quot n 2)),
        e).
Proof.
  intros Hn Hfull [HE HC] [Hec Hcc].
  assert (Hb : 2 <= borrow_n n <= n - 1).
  { rewrite borrow_n_half. split.
    - apply Z.div_le_lower_bound; lia.
    - apply Z.lt_le_pred, Z.div_lt_upper_bound; lia. }
  destruct nd as [E C l]. cbn [entry children len] in *.
  apply (bt_split_child_full E C l n
           (Z.to_nat n) (Z.to_nat (borrow_n n))); try lia; try done.
  rewrite <- borrow_n_half. lia.
Qed.

Lemma arr_set_cases {A : Type} (a : list (option A)) (i : Z) (x : option A) :
  arr_set a i x = Fault \/ exists a', arr_set a i x = Done a'.
Proof. unfold arr_set. destruct (_ && _); eauto. Qed.

Lemma split_loop_fault (k : nat) :
  forall (i : nat) (itr : Z) E C l new_node,
    (i <= length E)%nat -> (S i <= length C)%nat ->
    (length E < i + k \/ length C < S i + k)%nat ->
    split_loop k (Z.of_nat i) itr (Node E C l) new_node = Fault.
Proof.
  induction k as [|k IH]; intros i itr E C l new_node HE HC Hout; [lia |].
  cbn [split_loop]. cbn [entry children len].
  rewrite arr_get_nat.
  destruct (E !! i) as [e|] eqn:He; [| done].
  apply lookup_lt_Some in He. cbn [mbind result_bind].
  destruct (arr_set_cases (entry new_node) itr e) as [-> | [ne ->]]; [done |].
  cbn [mbind result_bind].
  replace (Z.of_nat i + 1) with (Z.of_nat (S i)) by lia.
  rewrite arr_get_nat.
  destruct (C !! S i) as [c|] eqn:Hc; [| done].
  apply lookup_lt_Some in Hc. cbn [mbind result_bind].
  destruct (arr_set_cases (children (set_entry new_node ne)) (itr + 1) c)
    as [-> | [nc ->]]; [done |].
  cbn [mbind result_bind].
  rewrite arr_set_nat by lia. cbn [mbind result_bind].
  unfold set_entry, set_children. cbn [entry children len].
  rewrite arr_set_nat by lia. cbn [mbind result_bind].
  apply IH; rewrite ?length_insert; lia.
Qed.

Lemma bt_split_child_no_room nd (n : Z) :
  3 <= n -> is_full_node nd n = true -> ~ room_to_split nd n ->
  bt_split_child entry_cap child_cap nd n = Fault.
Proof.
  intros Hn Hfull Hroom.
  assert (Hb : 2 <= borrow_n n <= n - 1).
  { rewrite borrow_n_half. split.
    - apply Z.div_le_lower_bound; lia.
    - apply Z.lt_le_pred, Z.div_lt_upper_bound; lia. }
  destruct nd as [E C l]. unfold room_to_split in Hroom. cbn [entry children] in Hroom.
  unfold bt_split_child. rewrite Hfull. cbn [negb entry children len].
  replace (borrow_n n) with (Z.of_nat (Z.to_nat (borrow_n n))) by lia.
  set (b := Z.to_nat (borrow_n n)).
  rewrite arr_get_nat.
  destruct (C !! b) as [c|] eqn:Hc; [| done].
  apply lookup_lt_Some in Hc. cbn [mbind result_bind].
  destruct (arr_set_cases (children (bt_create_node entry_cap child_cap n)) 0 c)
    as [-> | [nc ->]]; [done |].
  cbn [mbind result_bind].
  rewrite arr_set_nat by lia. cbn [mbind result_bind].
  unfold set_children. cbn [entry children len].
  destruct (decide (b <= length E)%nat) as [HbE|HbE].
  - rewrite split_loop_fault; [done | lia | rewrite length_insert; lia |].
    rewrite length_insert. lia.
  - replace (Z.to_nat (n - Z.of_nat b)) with (S (Z.to_nat (n - Z.of_nat b) - 1))
      by lia.
    cbn [split_loop entry children len].
    rewrite (arr_get_out E) by lia. done.
Qed.


(** C10, as amended: for a full node, the accesses of [bt_split_child] stay
    within entry indices [0, n-1] and child indices [0, n]: the split runs
    without a fault exactly when the node has at least [n] entry slots and
    [n + 1] child slots. *)
Theorem bt_split_child_in_range nd (n : Z) :
  3 <= n -> is_full_node nd n = true -> alloc_ok entry_cap child_cap n ->
  (room_to_split nd n ->
   exists r, bt_split_child entry_cap child_cap nd n = Done r)
  /\ (~ room_to_split nd n -> bt_split_child entry_cap child_cap nd n = Fault).
Proof.
  intros Hn Hfull Halloc. split.
  - intros Hroom.
    destruct (bt_split_child_shape nd n Hn Hfull Hroom Halloc) as (e & _ & ->).
    eauto.
  - by apply bt_split_child_no_room.
Qed.

Lemma forallb_drop {A : Type} (f : A -> bool) (l : list A) (m : nat) :
  forallb f l = true -> forallb f (drop m l) = true.
Proof.
  revert m. induction l as [|x l IH]; intros [|m] H; cbn in *; try done.
  apply andb_prop in H as [_ H]. auto.
Qed.

Lemma count_ok_tail_empty nd (m : nat) :
  count_ok nd = true -> (Z.to_nat (len nd) <= m)%nat ->
  populated (drop m (entry nd)) = [].
Proof.
  intros H Hm. apply populated_empty.
  unfold count_ok in H.
  apply andb_prop in H as [H _]. apply andb_prop in H as [_ H].
  replace m with (Z.to_nat (len nd) + (m - Z.to_nat (len nd)))%nat by lia.
  rewrite <- drop_drop. by apply forallb_drop.
Qed.

Lemma full_node_facts nd (n : Z) :
  3 <= n -> is_full_node nd n = true ->
  Z.to_nat (len nd) = (Z.to_nat n - 1)%nat
  /\ (2 <= Z.to_nat (borrow_n n) <= Z.to_nat n - 1)%nat
  /\ borrow_n n = Z.of_nat (Z.to_nat (borrow_n n))
  /\ n = Z.of_nat (Z.to_nat n).
Proof.
  intros Hn Hfull. unfold is_full_node in Hfull.
  apply Z.eqb_eq in Hfull.
  assert (Hb : 2 <= borrow_n n <= n - 1).
  { rewrite borrow_n_half. split.
    - apply Z.div_le_lower_bound; lia.
    - apply Z.lt_le_pred, Z.div_lt_upper_bound; lia. }
  lia.
Qed.

(** C4: the split of a full node preserves the order of its entries: the
    entries left in the node, then the promoted entry, then the entries of
    the new right node are the entries the node held, in the same order. *)
Theorem bt_split_child_order nd (n : Z) :
  3 <= n -> is_full_node nd n = true -> count_ok nd = true ->
  room_to_split nd n -> alloc_ok entry_cap child_cap n ->
  exists left right promoted,
    bt_split_child entry_cap child_cap nd n = Done (left, Some right, Some promoted)
    /\ populated (entry left) ++ promoted :: populated (entry right)
       = populated (entry nd).
Proof.
  intros Hn Hfull Hok Hroom Halloc.
  destruct (full_node_facts nd n Hn Hfull) as (Hlen & Hb & HbZ & HnZ).
  destruct (bt_split_child_shape nd n Hn Hfull Hroom Halloc) as (e & He & ->).
  destruct Hroom as [HE HC].
  set (b := Z.to_nat (borrow_n n)) in *. set (N := Z.to_nat n) in *.
  destruct (count_ok_entry_populated nd (b - 1) Hok) as [p Hp]; [lia | lia |].
  rewrite Hp in He. injection He as <-.
  eexists _, _, p. split; [done |]. cbn [entry].
  rewrite !populated_app, !populated_replicate.
  rewrite (count_ok_tail_empty nd N Hok) by lia.
  rewrite !app_nil_r.
  assert (Hdec : entry nd = take (b - 1) (entry nd) ++ Some p
                   :: take (N - b) (drop b (entry nd)) ++ drop N (entry nd)).
  { rewrite <- (take_drop (b - 1) (entry nd)) at 1. f_equal.
    rewrite (drop_S _ _ _ Hp). f_equal.
    replace (S (b - 1)) with b by lia.
    rewrite <- (take_drop (N - b) (drop b (entry nd))) at 1. f_equal.
    rewrite drop_drop. f_equal. lia. }
  rewrite Hdec at 3.
  rewrite populated_app. cbn [populated]. rewrite populated_app.
  rewrite (count_ok_tail_empty nd N Hok) by lia.
  by rewrite app_nil_r.
Qed.


(** C3: the split of a full node returns the entry originally at index
    [borrow_n - 1] and clears its slot; the new right node takes the entries
    originally at [borrow_n .. n-2] and the children originally at
    [borrow_n .. n-1], in order and starting at its index 0, and nothing
    else; those slots are cleared in the old node, whose lower slots are
    untouched. *)
Theorem bt_split_child_moves nd (n : Z) :
  3 <= n -> is_full_node nd n = true -> count_ok nd = true ->
  room_to_split nd n -> alloc_ok entry_cap child_cap n ->
  exists left right promoted,
    bt_split_child entry_cap child_cap nd n = Done (left, Some right, Some promoted)
    /\ entry nd !! Z.to_nat (borrow_n n - 1) = Some (Some promoted)
    /\ (forall i : nat, Z.of_nat i < borrow_n n - 1 ->
          entry left !! i = entry nd !! i)
    /\ (forall i : nat, borrow_n n - 1 <= Z.of_nat i <= n - 2 ->
          entry left !! i = Some None)
    /\ (forall j : nat, borrow_n n + Z.of_nat j <= n - 2 ->
          entry right !! j = entry nd !! (Z.to_nat (borrow_n n) + j)%nat)
    /\ (forall j : nat, n - 2 < borrow_n n + Z.of_nat j ->
          (j < length (entry right))%nat -> entry right !! j = Some None)
    /\ (forall i : nat, Z.of_nat i < borrow_n n ->
          children left !! i = children nd !! i)
    /\ (forall i : nat, borrow_n n <= Z.of_nat i <= n - 1 ->
          children left !! i = Some None)
    /\ children right !! 0%nat = children nd !! Z.to_nat (borrow_n n)
    /\ (forall j : nat, borrow_n n + Z.of_nat j <= n - 1 ->
          children right !! j = children nd !! (Z.to_nat (borrow_n n) + j)%nat)
    /\ (forall j : nat, n - 1 < borrow_n n + Z.of_nat j ->
          (j < length (children right))%nat -> children right !! j = Some None).
Proof.
  intros Hn Hfull Hok Hroom Halloc.
  destruct (full_node_facts nd n Hn Hfull) as (Hlen & Hb & HbZ & HnZ).
  destruct (bt_split_child_shape nd n Hn Hfull Hroom Halloc) as (e & He & ->).
  destruct Hroom as [HE HC].
  replace (Z.to_nat (borrow_n n - 1)) with (Z.to_nat (borrow_n n) - 1)%nat by lia.
  set (b := Z.to_nat (borrow_n n)) in *. set (N := Z.to_nat n) in *.
  destruct (count_ok_entry_populated nd (b - 1) Hok) as [p Hp]; [lia | lia |].
  rewrite Hp in He. injection He as <-.
  eexists _, _, p. split; [done |]. split; [done |]. cbn [entry children].
  assert (HtE : length (take (N - b) (drop b (entry nd))) = (N - b)%nat).
  { rewrite length_take, length_drop. lia. }
  assert (HtC : length (take (S (N - b)) (drop b (children nd))) = S (N - b)).
  { rewrite length_take, length_drop. lia. }
  repeat split.
  - intros i Hi.
    rewrite lookup_app_l by (rewrite length_take; lia).
    apply lookup_take_lt. lia.
  - intros i Hi.
    rewrite lookup_app_r by (rewrite length_take; lia).
    rewrite length_take_le by lia.
    rewrite lookup_app_l by (rewrite length_replicate; lia).
    apply lookup_replicate_2. lia.
  - intros j Hj.
    rewrite lookup_app_l by lia.
    rewrite lookup_take_lt by lia. apply lookup_drop.
  - intros j Hj Hlt.
    destruct (decide (j < N - b)%nat) as [Hin|Hin].
    + rewrite lookup_app_l by lia.
      rewrite lookup_take_lt by lia. rewrite lookup_drop.
      apply count_ok_entry_empty; [done | lia].
    + rewrite lookup_app_r by lia.
      rewrite length_app, length_replicate in Hlt.
      apply lookup_replicate_2. lia.
  - intros i Hi.
    rewrite lookup_app_l by (rewrite length_take; lia).
    apply lookup_take_lt. lia.
  - intros i Hi.
    rewrite lookup_app_r by (rewrite length_take; lia).
    rewrite length_take_le by lia.
    rewrite lookup_app_l by (rewrite length_replicate; lia).
    apply lookup_replicate_2. lia.
  - rewrite lookup_app_l by lia.
    rewrite lookup_take_lt by lia. rewrite lookup_drop. f_equal. lia.
  - intros j Hj.
    rewrite lookup_app_l by lia.
    rewrite lookup_take_lt by lia. apply lookup_drop.
  - intros j Hj Hlt.
    destruct (decide (j < S (N - b))%nat) as [Hin|Hin].
    + rewrite lookup_app_l by lia.
      rewrite lookup_take_lt by lia. rewrite lookup_drop.
      apply count_ok_child_empty; [done | lia].
    + rewrite lookup_app_r by lia.
      rewrite length_app, length_replicate in Hlt.
      apply lookup_replicate_2. lia.
Qed.

End Split.

(** ** The helpers *)

Lemma bind_Done {A B : Type} (m : result A) (k : A -> result B) (r : B) :
  m ≫= k = Done r -> exists a, m = Done a /\ k a = Done r.
Proof. destruct m; cbn; intros H; [eauto | done | done]. Qed.

Ltac bind_inv H :=
  let a := fresh "a" in
  let Ha := fresh "Ha" in
  apply bind_Done in H as (a & Ha & H).

Tactic Notation "unbind" hyp(H) "as" simple_intropattern(a) ident(Ha) :=
  apply bind_Done in H as (a & Ha & H).

Lemma arr_get_Done {A : Type} (a : list (option A)) (i : Z) (x : option A) :
  arr_get a i = Done x -> 0 <= i /\ a !! Z.to_nat i = Some x.
Proof.
  unfold arr_get. destruct (Z.leb_spec 0 i); [| done].
  destruct (a !! Z.to_nat i); [| done]. intros [= ->]. done.
Qed.

Lemma arr_set_Done {A : Type} (a a' : list (option A)) (i : Z) (x : option A) :
  arr_set a i x = Done a' ->
  0 <= i < Z.of_nat (length a) /\ a' = <[Z.to_nat i := x]> a.
Proof.
  unfold arr_set. destruct (Z.leb_spec 0 i); [| done].
  destruct (Z.ltb_spec i (Z.of_nat (length a))); [| done].
  cbn. intros [= <-]. done.
Qed.

Lemma arr_set_ok {A : Type} (a : list (option A)) (i : Z) (x : option A) :
  0 <= i < Z.of_nat (length a) -> arr_set a i x = Done (<[Z.to_nat i := x]> a).
Proof.
  intros Hi. unfold arr_set.
  destruct (Z.leb_spec 0 i); [| lia].
  destruct (Z.ltb_spec i (Z.of_nat (length a))); [done | lia].
Qed.

Lemma shift_in_Done {A : Type} (a a' : list (option A)) (p cnt : Z) (x : option A) :
  shift_in a p cnt x = Done a' ->
  0 <= p <= cnt /\ cnt < Z.of_nat (length a)
  /\ a' = take (Z.to_nat p) a ++ x :: take (Z.to_nat (cnt - p)) (drop (Z.to_nat p) a)
            ++ drop (Z.to_nat (cnt + 1)) a.
Proof.
  unfold shift_in.
  destruct (Z.leb_spec 0 p); [| done].
  destruct (Z.leb_spec p cnt); [| done].
  destruct (Z.ltb_spec cnt (Z.of_nat (length a))); [| done].
  cbn. intros [= <-]. repeat split; lia || done.
Qed.



Lemma next_index_from_range (cnt : nat) (i : Z) a (k r : Z) :
  next_index_from cnt i a k = Done r -> i <= r <= i + Z.of_nat cnt.
Proof.
  revert i. induction cnt as [|cnt IH]; intros i H; cbn in H.
  - injection H as <-. lia.
  - bind_inv H. destruct a0 as [x|]; [| done].
    destruct (k <? key x).
    + injection H as <-. lia.
    + apply IH in H. lia.
Qed.

Lemma get_next_node_index_range nd (k n r : Z) :
  get_next_node_index nd k n = Done r -> 0 <= r <= Z.max 0 (len nd).
Proof.
  intros H. apply next_index_from_range in H. lia.
Qed.

Lemma node_insert_entry_Done nd e (n : Z) nd' (p : Z) :
  node_insert_entry nd e true n = Done (nd', p) ->
  is_full_node nd n = false
  /\ get_next_node_index nd (key e) n = Done p
  /\ shift_in (entry nd) p (len nd) (Some e) = Done (entry nd')
  /\ shift_in (children nd) (p + 1) (len nd + 1) None = Done (children nd')
  /\ len nd' = len nd + 1.
Proof.
  unfold node_insert_entry. destruct (is_full_node nd n); [done |].
  intros H. bind_inv H. bind_inv H. bind_inv H.
  injection H as <- <-. done.
Qed.

(** ** Heights *)

Lemma height_Node E C l : height (Node E C l) = S (heights C).
Proof.
  reflexivity.
Qed.

Lemma height_children nd : height nd = S (heights (children nd)).
Proof. destruct nd. apply height_Node. Qed.

Lemma heights_app a b : heights (a ++ b) = Nat.max (heights a) (heights b).
Proof.
  induction a as [|[c|] a IH]; cbn; [done | rewrite IH; lia | done].
Qed.

Lemma heights_cons x a : heights (x :: a) = Nat.max (height_opt x) (heights a).
Proof. destruct x; cbn; done. Qed.

Lemma heights_replicate k : heights (replicate k None) = O.
Proof. induction k; cbn; done. Qed.

Lemma heights_take k a : (heights (take k a) <= heights a)%nat.
Proof.
  rewrite <- (take_drop k a) at 2. rewrite heights_app. lia.
Qed.

Lemma heights_drop k a : (heights (drop k a) <= heights a)%nat.
Proof.
  rewrite <- (take_drop k a) at 2. rewrite heights_app. lia.
Qed.

Lemma heights_lookup a (i : nat) x :
  a !! i = Some x -> (height_opt x <= heights a)%nat.
Proof.
  intros H. rewrite <- (take_drop_middle a i x H).
  rewrite heights_app, heights_cons. lia.
Qed.

Lemma heights_insert a (i : nat) x :
  (heights (<[i := x]> a) <= Nat.max (heights a) (height_opt x))%nat.
Proof.
  destruct (decide (i < length a)%nat) as [Hi|Hi].
  - rewrite insert_take_drop by done.
    rewrite heights_app, heights_cons.
    pose proof (heights_take i a). pose proof (heights_drop (S i) a). lia.
  - rewrite list_insert_ge by lia. lia.
Qed.

Lemma shift_in_heights a a' (p cnt : Z) :
  shift_in a p cnt None = Done a' -> (heights a' <= heights a)%nat.
Proof.
  intros H. apply shift_in_Done in H as (_ & _ & ->).
  rewrite heights_app, heights_cons, heights_app. cbn [height_opt].
  pose proof (heights_take (Z.to_nat p) a).
  pose proof (heights_take (Z.to_nat (cnt - p)) (drop (Z.to_nat p) a)).
  pose proof (heights_drop (Z.to_nat p) a).
  pose proof (heights_drop (Z.to_nat (cnt + 1)) a). lia.
Qed.

Lemma arr_get_height a (i : Z) x :
  arr_get a i = Done x -> (height_opt x <= heights a)%nat.
Proof. intros H. apply arr_get_Done in H as [_ H]. by eapply heights_lookup. Qed.

Lemma arr_set_heights a a' (i : Z) x :
  arr_set a i x = Done a' -> (heights a' <= Nat.max (heights a) (height_opt x))%nat.
Proof. intros H. apply arr_set_Done in H as [_ ->]. apply heights_insert. Qed.

Lemma node_insert_entry_heights nd e (n : Z) nd' (p : Z) :
  node_insert_entry nd e true n = Done (nd', p) ->
  (heights (children nd') <= heights (children nd))%nat.
Proof.
  intros H. apply node_insert_entry_Done in H as (_ & _ & _ & HC & _).
  by eapply shift_in_heights.
Qed.

Lemma split_loop_heights (k : nat) :
  forall (i itr : Z) node new_node node' new_node',
    split_loop k i itr node new_node = Done (node', new_node') ->
    (heights (children node') <= heights (children node))%nat
    /\ (heights (children new_node')
        <= Nat.max (heights (children new_node)) (heights (children node)))%nat.
Proof.
  induction k as [|k IH]; intros i itr node new_node node' new_node' H.
  - cbn in H. injection H as <- <-. lia.
  - cbn [split_loop] in H.
    bind_inv H. bind_inv H. bind_inv H. bind_inv H. bind_inv H. bind_inv H.
    apply IH in H as [H1 H2].
    unfold set_children, set_entry in *. cbn [entry children len] in *.
    apply arr_get_height in Ha1. apply arr_set_heights in Ha2, Ha4.
    cbn [height_opt] in *. lia.
Qed.

Section Engine.

Context (entry_cap child_cap : Z -> nat).


Lemma split_full_root_not_full nd (n : Z) :
  is_full_node nd n = false -> split_full_root entry_cap child_cap nd n = Done (Same nd).
Proof.
  intros H. unfold split_full_root. by rewrite bt_split_child_not_full.
Qed.


Lemma bt_split_child_heights nd (n : Z) left right e :
  bt_split_child entry_cap child_cap nd n = Done (left, right, e) ->
  (heights (children left) <= heights (children nd))%nat
  /\ (height_opt right <= height nd)%nat.
Proof.
  unfold bt_split_child. destruct (is_full_node nd n); cbn [negb].
  - intros H.
    bind_inv H. bind_inv H. bind_inv H. bind_inv H. destruct a2 as [node new_node].
    bind_inv H. bind_inv H. injection H as <- <- <-.
    apply split_loop_heights in Ha2 as [H1 H2].
    unfold set_children, set_entry, set_len, bt_create_node in *.
    cbn [entry children len height_opt] in *.
    apply arr_get_height in Ha. apply arr_set_heights in Ha0, Ha1.
    rewrite heights_replicate in Ha0. cbn [height_opt] in *.
    rewrite height_Node, (height_children nd). lia.
  - intros [= <- <- <-]. cbn. lia.
Qed.

Lemma shift_in_fresh_entry {A : Type} (c : nat) (x : option A) :
  (0 < c)%nat ->
  shift_in (replicate c None) 0 0 x = Done (x :: replicate (c - 1) None).
Proof.
  intros Hc. unfold shift_in. rewrite length_replicate.
  destruct (Z.ltb_spec 0 (Z.of_nat c)); [| lia].
  destruct c as [|c]; [lia |]. cbn. by rewrite ?Nat.sub_0_r, ?drop_0.
Qed.

Lemma shift_in_fresh_children {A : Type} (c : nat) :
  (1 < c)%nat ->
  shift_in (replicate c (@None A)) 1 1 None = Done (replicate c None).
Proof.
  intros Hc. unfold shift_in. rewrite length_replicate.
  destruct (Z.ltb_spec 1 (Z.of_nat c)); [| lia].
  destruct c as [|[|c]]; [lia | lia |]. cbn. by rewrite ?drop_0.
Qed.

Lemma node_insert_entry_fresh (n : Z) e :
  3 <= n -> alloc_ok entry_cap child_cap n ->
  node_insert_entry (bt_create_node entry_cap child_cap n) e true n
  = Done (Node (Some e :: replicate (entry_cap n - 1) None)
               (replicate (child_cap n) None) 1, 0).
Proof.
  intros Hn [He Hc]. unfold node_insert_entry, bt_create_node, is_full_node.
  cbn [len entry children].
  destruct (Z.eqb_spec 0 (n - 1)); [lia |].
  change (get_next_node_index _ (key e) n) with (@Done Z 0).
  cbn [mbind result_bind]. change (0 + 1) with 1.
  rewrite shift_in_fresh_entry by lia. cbn [mbind result_bind].
  rewrite shift_in_fresh_children by lia. done.
Qed.

Lemma split_full_root_Done nd (n : Z) r :
  3 <= n -> alloc_ok entry_cap child_cap n ->
  split_full_root entry_cap child_cap nd n = Done r ->
  match r with
  | Same r' => (height r' <= height nd)%nat
  | Grown r' =>
      is_full_node nd n = true /\ (height r' <= S (height nd))%nat
      /\ is_full_node r' n = false
      /\ exists left right promoted,
           bt_split_child entry_cap child_cap nd n = Done (left, right, Some promoted)
           /\ r' = Node (Some promoted :: replicate (entry_cap n - 1) None)
                        (<[1%nat := right]>
                           (<[0%nat := Some left]> (replicate (child_cap n) None)))
                        1
  end.
Proof.
  intros Hn Halloc H. unfold split_full_root in H.
  bind_inv H. destruct a as [[left right] [promoted|]].
  - rewrite node_insert_entry_fresh in H by done. cbn [mbind result_bind] in H.
    destruct Halloc as [He Hc].
    unfold set_children in H. cbn [entry children len] in H.
    rewrite (arr_set_ok _ 0) in H by (rewrite length_replicate; lia).
    cbn [mbind result_bind] in H.
    rewrite (arr_set_ok _ 1) in H by (rewrite length_insert, length_replicate; lia).
    cbn [mbind result_bind] in H.
    change (Z.to_nat 1) with 1%nat in H. change (Z.to_nat 0) with 0%nat in H.
    injection H as <-.
    pose proof (bt_split_child_heights _ _ _ _ _ Ha) as [H1 H2].
    repeat split.
    + destruct (is_full_node nd n) eqn:Hf; [done |].
      by rewrite bt_split_child_not_full in Ha.
    + rewrite height_Node.
      pose proof (heights_insert
                    (<[0%nat:=Some left]> (replicate (child_cap n) None)) 1 right).
      pose proof (heights_insert (replicate (child_cap n) None) 0 (Some left)).
      rewrite heights_replicate in *. cbn [height_opt] in *.
      rewrite (height_children left) in *. rewrite (height_children nd) in *. lia.
    + unfold is_full_node. cbn [len]. apply Z.eqb_neq. lia.
    + eauto.
  - injection H as <-.
    pose proof (bt_split_child_heights _ _ _ _ _ Ha) as [H1 H2].
    rewrite (height_children left), (height_children nd). lia.
Qed.

Lemma bt_insert_helper_body_Done bt at_root nd e s :
  3 <= n bt -> alloc_ok entry_cap child_cap (n bt) ->
  bt_insert_helper_body entry_cap child_cap bt at_root nd e = Done s ->
  match s with
  | Restart r =>
      at_root = true /\ is_full_node nd (n bt) = true
      /\ split_full_root entry_cap child_cap nd (n bt) = Done (Grown r)
      /\ (height r <= S (height nd))%nat /\ is_full_node r (n bt) = false
  | Inserted r => (height r <= height nd)%nat
  | Descend r _ => (height r <= height nd)%nat
  end.
Proof.
  intros Hn Halloc H. unfold bt_insert_helper_body in H.
  bind_inv H.
  assert (Hsplit : match a with
                   | Same r' => (height r' <= height nd)%nat
                   | Grown r' =>
                       at_root = true /\ is_full_node nd (n bt) = true
                       /\ split_full_root entry_cap child_cap nd (n bt)
                          = Done (Grown r')
                       /\ (height r' <= S (height nd))%nat
                       /\ is_full_node r' (n bt) = false
                   end).
  { destruct at_root.
    - pose proof (split_full_root_Done _ _ _ Hn Halloc Ha) as Hr.
      destruct a; [done |]. destruct Hr as (? & ? & ? & _). done.
    - injection Ha as <-. done. }
  destruct a as [r'|r']; [| injection H as <-; done].
  rewrite (height_children r') in Hsplit.
  unbind H as idx Hidx. unbind H as [child|] Hget; cbn [is_leaf] in H.
  - unbind H as child0 Hchild. injection Hchild as <-.
    unbind H as [[child' splitted] median] Hsp.
    unbind H as cs Hcs.
    pose proof (arr_get_height _ _ _ Hget) as Hc.
    pose proof (bt_split_child_heights _ _ _ _ _ Hsp) as [Hc1 Hc2].
    apply arr_set_heights in Hcs.
    cbn [height_opt] in *.
    rewrite (height_children child'), (height_children child) in *.
    destruct median as [m|].
    + unbind H as [root1 ret] Hins. unbind H as cs' Hcs'.
      unbind H as idx' Hidx'. injection H as <-.
      apply node_insert_entry_heights in Hins. cbn [children set_children] in Hins.
      apply arr_set_heights in Hcs'.
      rewrite height_children. cbn [children set_children]. lia.
    + injection H as <-. rewrite height_children. cbn [children set_children]. lia.
  - unbind H as [root1 ret] Hins. injection H as <-.
    apply node_insert_entry_heights in Hins.
    rewrite (height_children root1). lia.
Qed.

(** *** No helper runs out of fuel *)

Lemma bind_in_time {A B : Type} (m : result A) (k : A -> result B) :
  m <> OutOfFuel -> (forall a, m = Done a -> k a <> OutOfFuel) ->
  m ≫= k <> OutOfFuel.
Proof. destruct m; cbn; intros H1 H2; [by apply H2 | done | done]. Qed.

Lemma arr_get_in_time {A : Type} (a : list (option A)) i : arr_get a i <> OutOfFuel.
Proof. unfold arr_get. by repeat case_match. Qed.

Lemma arr_set_in_time {A : Type} (a : list (option A)) i x :
  arr_set a i x <> OutOfFuel.
Proof. unfold arr_set. by repeat case_match. Qed.

Lemma shift_in_in_time {A : Type} (a : list (option A)) p cnt x :
  shift_in a p cnt x <> OutOfFuel.
Proof. unfold shift_in. by repeat case_match. Qed.

Lemma next_index_from_in_time cnt i a k : next_index_from cnt i a k <> OutOfFuel.
Proof.
  revert i. induction cnt as [|cnt IH]; intros i; cbn; [done |].
  apply bind_in_time; [apply arr_get_in_time |].
  intros [x|] _; [| done]. by case_match.
Qed.

Lemma get_next_node_index_in_time nd k n : get_next_node_index nd k n <> OutOfFuel.
Proof. apply next_index_from_in_time. Qed.

Lemma node_insert_entry_in_time nd e shift n :
  node_insert_entry nd e shift n <> OutOfFuel.
Proof.
  unfold node_insert_entry. case_match; [done |].
  apply bind_in_time; [apply get_next_node_index_in_time | intros p _].
  apply bind_in_time; [apply shift_in_in_time | intros es _].
  apply bind_in_time; [| done].
  destruct shift; [apply shift_in_in_time | done].
Qed.

Lemma split_loop_in_time k :
  forall i itr node new_node, split_loop k i itr node new_node <> OutOfFuel.
Proof.
  induction k as [|k IH]; intros i itr node new_node; cbn [split_loop]; [done |].
  repeat (apply bind_in_time;
          [first [apply arr_get_in_time | apply arr_set_in_time] | intros ? _]).
  apply IH.
Qed.

Lemma bt_split_child_in_time nd n :
  bt_split_child entry_cap child_cap nd n <> OutOfFuel.
Proof.
  unfold bt_split_child. case_match; [done |].
  repeat (apply bind_in_time;
          [first [apply arr_get_in_time | apply arr_set_in_time
                 | apply split_loop_in_time] | intros ? _]).
  destruct a2. 
  repeat (apply bind_in_time;
          [first [apply arr_get_in_time | apply arr_set_in_time] | intros ? _]).
  done.
Qed.

Lemma split_full_root_in_time nd n :
  split_full_root entry_cap child_cap nd n <> OutOfFuel.
Proof.
  unfold split_full_root.
  apply bind_in_time; [apply bt_split_child_in_time | intros [[? ?] [?|]] _; [| done]].
  apply bind_in_time; [apply node_insert_entry_in_time | intros [? ?] _].
  repeat (apply bind_in_time; [apply arr_set_in_time | intros ? _]).
  done.
Qed.

Lemma bt_insert_helper_body_in_time bt at_root nd e :
  bt_insert_helper_body entry_cap child_cap bt at_root nd e <> OutOfFuel.
Proof.
  unfold bt_insert_helper_body.
  apply bind_in_time.
  { destruct at_root; [apply split_full_root_in_time | done]. }
  intros [r|r] _; [| done].
  apply bind_in_time; [apply get_next_node_index_in_time | intros idx _].
  apply bind_in_time; [apply arr_get_in_time | intros [child|] _]; cbn [is_leaf].
  - apply bind_in_time; [done | intros ? _].
    apply bind_in_time; [apply bt_split_child_in_time | intros [[? ?] [?|]] _].
    + apply bind_in_time; [apply arr_set_in_time | intros ? _].
      apply bind_in_time; [apply node_insert_entry_in_time | intros [? ?] _].
      apply bind_in_time; [apply arr_set_in_time | intros ? _].
      apply bind_in_time; [apply get_next_node_index_in_time | done].
    + apply bind_in_time; [apply arr_set_in_time | done].
  - apply bind_in_time; [apply node_insert_entry_in_time | intros [? ?] _; done].
Qed.

(** ** The recursion *)

Lemma bt_insert_helper_absent fuel bt at_root e :
  3 <= n bt -> alloc_ok entry_cap child_cap (n bt) ->
  bt_insert_helper entry_cap child_cap fuel bt at_root None e
  = Done (Reset (Node (Some e :: replicate (entry_cap (n bt) - 1) None)
                      (replicate (child_cap (n bt)) None) 1) (key e)).
Proof.
  intros Hn Halloc. destruct fuel; cbn [bt_insert_helper];
    by rewrite node_insert_entry_fresh.
Qed.

Lemma bt_insert_helper_height fuel :
  forall bt at_root nd e eff,
    3 <= n bt -> alloc_ok entry_cap child_cap (n bt) ->
    (at_root = true -> is_full_node nd (n bt) = false) ->
    bt_insert_helper entry_cap child_cap fuel bt at_root (Some nd) e = Done eff ->
    match eff with
    | InPlace r => (height r <= height nd)%nat
    | Reset r _ => height r = 1%nat
    end.
Proof.
  induction fuel as [|fuel IH]; intros bt at_root nd e eff Hn Halloc Hroot H;
    cbn [bt_insert_helper] in H; [done |].
  unbind H as s Hs.
  pose proof (bt_insert_helper_body_Done _ _ _ _ _ Hn Halloc Hs) as Hbody.
  destruct s as [r|r|r idx].
  - destruct Hbody as (-> & Hfull & _). rewrite Hroot in Hfull; done.
  - injection H as <-. done.
  - unbind H as c Hc. unbind H as eff' Heff.
    destruct c as [c|].
    + apply IH in Heff; [| done | done | done].
      apply arr_get_height in Hc. cbn [height_opt] in Hc.
      rewrite (height_children r) in Hbody.
      destruct eff' as [c'|r' k].
      * unbind H as cs Hcs. injection H as <-.
        apply arr_set_heights in Hcs. cbn [height_opt] in Hcs.
        rewrite height_children. cbn [children set_children]. lia.
      * injection H as <-. done.
    + rewrite bt_insert_helper_absent in Heff by done.
      injection Heff as <-. injection H as <-.
      rewrite height_Node, heights_replicate. done.
Qed.

Lemma bt_insert_helper_in_time fuel :
  forall bt at_root nd e,
    3 <= n bt -> alloc_ok entry_cap child_cap (n bt) ->
    (height nd <= fuel)%nat ->
    (at_root = true -> is_full_node nd (n bt) = true -> (height nd + 2 <= fuel)%nat) ->
    bt_insert_helper entry_cap child_cap fuel bt at_root (Some nd) e <> OutOfFuel.
Proof.
  induction fuel as [|fuel IH]; intros bt at_root nd e Hn Halloc Hh Hroot.
  - rewrite height_children in Hh. lia.
  - cbn [bt_insert_helper].
    apply bind_in_time; [apply bt_insert_helper_body_in_time | intros s Hs].
    pose proof (bt_insert_helper_body_Done _ _ _ _ _ Hn Halloc Hs) as Hbody.
    destruct s as [r|r|r idx]; [| done |].
    + destruct Hbody as (-> & Hfull & _ & Hr & Hnf).
      specialize (Hroot eq_refl Hfull).
      apply IH; cbn [n set_root]; [done | done | lia |].
      intros _ Hf. rewrite Hnf in Hf. done.
    + apply bind_in_time; [apply arr_get_in_time | intros c Hc].
      apply bind_in_time.
      * destruct c as [c|].
        -- apply arr_get_height in Hc. cbn [height_opt] in Hc.
           rewrite (height_children r) in Hbody.
           apply IH; [done | done | lia | done].
        -- by rewrite bt_insert_helper_absent.
      * intros [c'|r' k] _; [| done].
        apply bind_in_time; [apply arr_set_in_time | done].
Qed.




(** C9: [insert] terminates on every tree of order [n >= 3]: fuel
    [height + 2] is enough for the call to return (or to abort on a fault),
    the recursion descending one level per call; and the root built by a
    root split is not full, so that the restart is not followed by a second
    one. *)
Theorem bt_insert_helper_terminates bt e fuel :
  3 <= n bt -> alloc_ok entry_cap child_cap (n bt) ->
  (height_opt (root bt) + 2 <= fuel)%nat ->
  ((exists bt', insert entry_cap child_cap fuel bt e = Done bt')
   \/ insert entry_cap child_cap fuel bt e = Fault)
  /\ forall nd new_root,
       root bt = Some nd ->
       split_full_root entry_cap child_cap nd (n bt) = Done (Grown new_root) ->
       is_full_node new_root (n bt) = false
       /\ split_full_root entry_cap child_cap new_root (n bt) = Done (Same new_root).
Proof.
  intros Hn Halloc Hfuel. split.
  - assert (Hin : bt_insert_helper entry_cap child_cap fuel bt true (root bt) e
                  <> OutOfFuel).
    { destruct (root bt) as [nd|] eqn:Hroot.
      - cbn [height_opt] in Hfuel. apply bt_insert_helper_in_time; try done; lia.
      - by rewrite bt_insert_helper_absent. }
    unfold insert.
    destruct (bt_insert_helper entry_cap child_cap fuel bt true (root bt) e);
      cbn [mbind result_bind]; [eauto | eauto | done].
  - intros nd new_root _ Hgrow.
    apply (split_full_root_Done _ _ _ Hn Halloc) in Hgrow as (_ & _ & Hnf & _).
    split; [done |]. by apply split_full_root_not_full.
Qed.

(** ** Inserting into a node without children *)

Lemma next_index_from_sorted (s : list cbt_entry_t) :
  forall (pre post : list (option cbt_entry_t)) (k : Z),
    next_index_from (length s) (Z.of_nat (length pre))
      (pre ++ (Some <$> s) ++ post) k
    = Done (Z.of_nat (length pre + pos k s)).
Proof.
  induction s as [|x s IH]; intros pre post k; cbn [length next_index_from pos].
  - by rewrite Nat.add_0_r.
  - rewrite arr_get_nat.
    rewrite lookup_app_r, Nat.sub_diag by lia. cbn [fmap list_fmap app lookup list_lookup].
    cbn [mbind result_bind].
    destruct (k <? key x); [by rewrite Nat.add_0_r |].
    replace (Z.of_nat (length pre) + 1) with (Z.of_nat (length (pre ++ [Some x])))
      by (rewrite length_app; cbn; lia).
    replace (pre ++ Some x :: (Some <$> s) ++ post)
      with ((pre ++ [Some x]) ++ (Some <$> s) ++ post)
      by (by rewrite <- app_assoc).
    rewrite IH. rewrite length_app. cbn [length]. do 2 f_equal. lia.
Qed.

Lemma get_next_node_index_leaf ec cc (s : list cbt_entry_t) (k n : Z) :
  get_next_node_index (leaf_node ec cc s) k n = Done (Z.of_nat (pos k s)).
Proof.
  unfold get_next_node_index, leaf_node. cbn [len entry]. rewrite Nat2Z.id.
  apply (next_index_from_sorted s [] _ k).
Qed.

Lemma pos_le (k : Z) (s : list cbt_entry_t) : (pos k s <= length s)%nat.
Proof.
  induction s as [|x s IH]; cbn; [lia |]. destruct (k <? key x); lia.
Qed.

Lemma place_pos (e : cbt_entry_t) (s : list cbt_entry_t) :
  place e s = take (pos (key e) s) s ++ e :: drop (pos (key e) s) s.
Proof.
  induction s as [|x s IH]; cbn; [done |].
  destruct (key e <? key x); cbn; [done |]. by rewrite IH.
Qed.

Lemma place_length (e : cbt_entry_t) (s : list cbt_entry_t) :
  length (place e s) = S (length s).
Proof.
  induction s as [|x s IH]; cbn; [done |].
  destruct (key e <? key x); cbn; [done |]. by rewrite IH.
Qed.

Lemma shift_in_replicate {A : Type} (c : nat) (p cnt : Z) :
  0 <= p <= cnt -> cnt < Z.of_nat c ->
  shift_in (replicate c (@None A)) p cnt None = Done (replicate c None).
Proof.
  intros Hp Hc. unfold shift_in. rewrite length_replicate.
  destruct (Z.leb_spec 0 p); [| lia].
  destruct (Z.leb_spec p cnt); [| lia].
  destruct (Z.ltb_spec cnt (Z.of_nat c)); [| lia].
  cbn [andb]. f_equal. symmetry. apply replicate_as_Forall. split.
  - rewrite length_app. cbn [length]. rewrite length_app.
    rewrite !length_take, !length_drop, !length_replicate. lia.
  - apply Forall_app. split; [apply Forall_take, Forall_replicate_eq |].
    apply Forall_cons. split; [done |].
    apply Forall_app. split.
    + apply Forall_take, Forall_drop, Forall_replicate_eq.
    + apply Forall_drop, Forall_replicate_eq.
Qed.

Lemma shift_in_leaf (ec : nat) (s : list cbt_entry_t) (e : cbt_entry_t) :
  (length s < ec)%nat ->
  shift_in ((Some <$> s) ++ replicate (ec - length s) None)
    (Z.of_nat (pos (key e) s)) (Z.of_nat (length s)) (Some e)
  = Done ((Some <$> place e s) ++ replicate (ec - length (place e s)) None).
Proof.
  intros Hs. pose proof (pos_le (key e) s) as Hp.
  unfold shift_in. rewrite length_app, length_fmap, length_replicate.
  destruct (Z.leb_spec 0 (Z.of_nat (pos (key e) s))); [| lia].
  destruct (Z.leb_spec (Z.of_nat (pos (key e) s)) (Z.of_nat (length s))); [| lia].
  destruct (Z.ltb_spec (Z.of_nat (length s))
              (Z.of_nat (length s + (ec - length s)))); [| lia].
  cbn [andb]. f_equal.
  rewrite Nat2Z.id.
  replace (Z.to_nat (Z.of_nat (length s) - Z.of_nat (pos (key e) s)))
    with (length s - pos (key e) s)%nat by lia.
  replace (Z.to_nat (Z.of_nat (length s) + 1)) with (S (length s)) by lia.
  set (p := pos (key e) s) in *.
  rewrite place_length, place_pos. fold p.
  rewrite take_app_le by (rewrite length_fmap; lia).
  rewrite drop_app_le by (rewrite length_fmap; lia).
  rewrite take_app_length' by (rewrite length_drop, length_fmap; lia).
  rewrite drop_app_ge by (rewrite length_fmap; lia).
  rewrite length_fmap, drop_replicate.
  rewrite <- fmap_take, <- fmap_drop.
  rewrite fmap_app, fmap_cons, <- app_assoc. cbn [app].
  do 4 f_equal. lia.
Qed.

Lemma node_insert_entry_leaf ec cc (s : list cbt_entry_t) (e : cbt_entry_t) (n : Z) :
  Z.of_nat (length s) < n - 1 -> (length s < ec)%nat -> (S (length s) < cc)%nat ->
  node_insert_entry (leaf_node ec cc s) e true n
  = Done (leaf_node ec cc (place e s), Z.of_nat (pos (key e) s)).
Proof.
  intros Hn Hec Hcc. pose proof (pos_le (key e) s) as Hp.
  unfold node_insert_entry. rewrite get_next_node_index_leaf.
  unfold is_full_node, leaf_node. cbn [len entry children].
  destruct (Z.eqb_spec (Z.of_nat (length s)) (n - 1)); [lia |].
  cbn [mbind result_bind]. rewrite shift_in_leaf by done.
  cbn [mbind result_bind]. rewrite shift_in_replicate by lia.
  cbn [mbind result_bind]. rewrite place_length. do 3 f_equal. lia.
Qed.

Lemma insert_leaf fuel bt ec cc (s : list cbt_entry_t) (e : cbt_entry_t) :
  root bt = Some (leaf_node ec cc s) ->
  Z.of_nat (length s) < n bt - 1 -> (length s < ec)%nat -> (S (length s) < cc)%nat ->
  insert entry_cap child_cap (S fuel) bt e
  = Done (Tree (Some (leaf_node ec cc (place e s))) (n bt) (max_key bt) (min_key bt)).
Proof.
  intros Hroot Hn Hec Hcc. pose proof (pos_le (key e) s) as Hp.
  unfold insert. rewrite Hroot. cbn [bt_insert_helper].
  unfold bt_insert_helper_body.
  rewrite split_full_root_not_full.
  2:{ unfold is_full_node, leaf_node. cbn [len]. apply Z.eqb_neq. lia. }
  cbn [mbind result_bind]. rewrite get_next_node_index_leaf.
  cbn [mbind result_bind]. rewrite arr_get_nat.
  change (children (leaf_node ec cc s)) with (replicate cc (@None cbt_node_t)).
  rewrite lookup_replicate_2 by lia. cbn [mbind result_bind is_leaf].
  rewrite node_insert_entry_leaf by done. done.
Qed.

Lemma insert_empty fuel bt (e : cbt_entry_t) :
  3 <= n bt -> alloc_ok entry_cap child_cap (n bt) -> root bt = None ->
  insert entry_cap child_cap fuel bt e
  = Done (Tree (Some (leaf_node (entry_cap (n bt)) (child_cap (n bt)) [e]))
               (n bt) (key e) (key e)).
Proof.
  intros Hn Halloc Hroot. unfold insert. rewrite Hroot.
  by rewrite bt_insert_helper_absent.
Qed.

Lemma populated_Some {A : Type} (s : list A) : populated (Some <$> s) = s.
Proof. induction s as [|x s IH]; cbn; [done | by rewrite IH]. Qed.

Lemma forallb_populated_Some {A : Type} (s : list A) :
  forallb populated_slot (Some <$> s) = true.
Proof. induction s; cbn; done. Qed.

Lemma forallb_empty_replicate {A : Type} (k : nat) :
  forallb empty_slot (replicate k (@None A)) = true.
Proof. induction k; cbn; done. Qed.

Lemma forallb_within_None (ks : list Z) : forallb (within None None) ks = true.
Proof. induction ks; cbn; done. Qed.

Lemma node_inv_leaf (n : Z) ec cc (s : list cbt_entry_t) :
  Z.of_nat (length s) <= n - 1 ->
  ascending_from None (map key s) = true ->
  node_inv n None None (leaf_node ec cc s) = true.
Proof.
  intros Hn Hasc. unfold leaf_node. cbn [node_inv].
  rewrite populated_app, populated_replicate, app_nil_r, populated_Some.
  rewrite Hasc, forallb_within_None.
  unfold count_ok. cbn [len entry children]. rewrite Nat2Z.id.
  rewrite take_app_length' by (by rewrite length_fmap).
  rewrite drop_app_length' by (by rewrite length_fmap).
  rewrite forallb_populated_Some, forallb_empty_replicate.
  rewrite take_replicate, drop_replicate, !forallb_empty_replicate.
  destruct (Z.leb_spec 0 (Z.of_nat (length s))); [| lia].
  destruct (Z.leb_spec (Z.of_nat (length s)) (n - 1)); [| lia].
  done.
Qed.

Lemma ascending_from_place (e : cbt_entry_t) (s : list cbt_entry_t) :
  forall lo,
    ascending_from lo (map key s) = true ->
    match lo with Some a => a < key e | None => True end ->
    ~ In (key e) (map key s) ->
    ascending_from lo (map key (place e s)) = true.
Proof.
  induction s as [|x s IH]; intros lo Hasc Hlo Hnin; cbn [place map ascending_from] in *.
  - rewrite andb_true_r. destruct lo; [by apply Z.ltb_lt | done].
  - apply andb_prop in Hasc as [Hx Hs].
    destruct (Z.ltb_spec (key e) (key x)) as [Hlt|Hge]; cbn [map ascending_from].
    + rewrite Hs, andb_true_r.
      apply andb_true_intro. split.
      * destruct lo; [by apply Z.ltb_lt | done].
      * by apply Z.ltb_lt.
    + rewrite Hx. cbn [andb]. apply IH; [done | |].
      * cbn. assert (key x <> key e) by (intros Heq; apply Hnin; by left). lia.
      * intros Hin. apply Hnin. by right.
Qed.





End Engine.

(** * The theorems at concrete inputs *)

Lemma loop_alloc_ok (n : Z) : alloc_ok loop_entry_cap loop_child_cap n.
Proof. unfold alloc_ok, loop_entry_cap, loop_child_cap. lia. Qed.






Lemma full4_room : room_to_split full4 4.
Proof. unfold room_to_split. cbn. lia. Qed.


Lemma bt_split_child_moves_witness :
  exists left right promoted,
    bt_split_child loop_entry_cap loop_child_cap full4 4
    = Done (left, Some right, Some promoted)
    /\ entry full4 !! Z.to_nat (borrow_n 4 - 1) = Some (Some promoted)
    /\ (forall i : nat, Z.of_nat i < borrow_n 4 - 1 ->
          entry left !! i = entry full4 !! i)
    /\ (forall i : nat, borrow_n 4 - 1 <= Z.of_nat i <= 4 - 2 ->
          entry left !! i = Some None)
    /\ (forall j : nat, borrow_n 4 + Z.of_nat j <= 4 - 2 ->
          entry right !! j = entry full4 !! (Z.to_nat (borrow_n 4) + j)%nat)
    /\ (forall j : nat, 4 - 2 < borrow_n 4 + Z.of_nat j ->
          (j < length (entry right))%nat -> entry right !! j = Some None)
    /\ (forall i : nat, Z.of_nat i < borrow_n 4 ->
          children left !! i = children full4 !! i)
    /\ (forall i : nat, borrow_n 4 <= Z.of_nat i <= 4 - 1 ->
          children left !! i = Some None)
    /\ children right !! 0%nat = children full4 !! Z.to_nat (borrow_n 4)
    /\ (forall j : nat, borrow_n 4 + Z.of_nat j <= 4 - 1 ->
          children right !! j = children full4 !! (Z.to_nat (borrow_n 4) + j)%nat)
    /\ (forall j : nat, 4 - 1 < borrow_n 4 + Z.of_nat j ->
          (j < length (children right))%nat -> children right !! j = Some None).
Proof.
  apply (bt_split_child_moves loop_entry_cap loop_child_cap full4 4).
  - lia.
  - reflexivity.
  - reflexivity.
  - apply full4_room.
  - apply loop_alloc_ok.
Defined.

Lemma bt_split_child_order_witness :
  exists left right promoted,
    bt_split_child loop_entry_cap loop_child_cap full4 4
    = Done (left, Some right, Some promoted)
    /\ populated (entry left) ++ promoted :: populated (entry right)
       = populated (entry full4).
Proof.
  apply (bt_split_child_order loop_entry_cap loop_child_cap full4 4).
  - lia.
  - reflexivity.
  - reflexivity.
  - apply full4_room.
  - apply loop_alloc_ok.
Defined.




Lemma bt_split_child_in_range_witness :
  (room_to_split full4 4 ->
   exists r, bt_split_child loop_entry_cap loop_child_cap full4 4 = Done r)
  /\ (~ room_to_split full4 4 ->
      bt_split_child loop_entry_cap loop_child_cap full4 4 = Fault).
Proof.
  apply (bt_split_child_in_range loop_entry_cap loop_child_cap full4 4).
  - lia.
  - reflexivity.
  - apply loop_alloc_ok.
Defined.

(** C10 fails on a full node whose arrays have the documented sizes: at
    order 3 the loop reads [entry[2]] of a two-slot array. *)
Lemma bt_split_child_documented_capacity_faults :
  is_full_node full3_documented 3 = true
  /\ documented_capacity full3_documented 3
  /\ bt_split_child documented_entry_cap documented_child_cap full3_documented 3
     = Fault
  /\ bt_split_child loop_entry_cap loop_child_cap full3_documented 3 = Fault.
Proof.
  split; [reflexivity |]. split; [split; reflexivity |].
  split; reflexivity.
Qed.




Lemma bt_insert_helper_terminates_witness :
  ((exists bt', insert loop_entry_cap loop_child_cap 4 tree_left_full (entry_of 7)
                = Done bt')
   \/ insert loop_entry_cap loop_child_cap 4 tree_left_full (entry_of 7) = Fault)
  /\ forall nd new_root,
       root tree_left_full = Some nd ->
       split_full_root loop_entry_cap loop_child_cap nd (n tree_left_full)
       = Done (Grown new_root) ->
       is_full_node new_root (n tree_left_full) = false
       /\ split_full_root loop_entry_cap loop_child_cap new_root (n tree_left_full)
          = Done (Same new_root).
Proof.
  apply (bt_insert_helper_terminates loop_entry_cap loop_child_cap
           tree_left_full (entry_of 7) 4).
  - cbn. lia.
  - apply loop_alloc_ok.
  - cbn. lia.
Defined.

(** * Further properties of the three functions *)

(** ** Traversal *)

Lemma inorder_Node E C l : inorder (Node E C l) = interleave (map inorder_opt C) E.
Proof.
  cbn [inorder]. f_equal. induction C as [|[c|] C IH]; cbn; [done | | ]; by rewrite <- IH.
Qed.

Lemma interleave_cons s subs e es :
  interleave (s :: subs) (e :: es) = s ++ populated [e] ++ interleave subs es.
Proof. reflexivity. Qed.

Lemma interleave_app (xs xs' : list (list cbt_entry_t)) :
  forall ys ys',
    length xs = length ys ->
    interleave (xs ++ xs') (ys ++ ys') = interleave xs ys ++ interleave xs' ys'.
Proof.
  induction xs as [|x xs IH]; intros [|y ys] ys' Hlen; cbn in Hlen; try done.
  cbn [app interleave]. rewrite IH by lia. by rewrite <- !app_assoc.
Qed.

Lemma interleave_no_children (xs : list (list cbt_entry_t)) :
  Forall (fun s => s = []) xs ->
  forall es, interleave xs es = populated es.
Proof.
  induction 1 as [|x xs -> _ IH]; intros es; cbn [interleave app]; [done |].
  destruct es as [|[e|] es]; cbn [populated app]; rewrite IH; done.
Qed.

Lemma interleave_no_entries (es : list (option cbt_entry_t)) :
  populated es = [] ->
  forall xs, interleave xs es = concat xs.
Proof.
  induction es as [|[e|] es IH]; intros Hes xs; cbn in Hes; try done.
  - induction xs as [|x xs IHx]; cbn [interleave concat populated]; [done |].
    by rewrite IHx.
  - destruct xs as [|x xs]; cbn [interleave concat populated app]; [done |].
    by rewrite IH.
Qed.

Lemma concat_no_children (xs : list (list cbt_entry_t)) :
  Forall (fun s => s = []) xs -> concat xs = [].
Proof. induction 1 as [|x xs -> _ IH]; cbn; done. Qed.

Lemma inorder_opt_empty (cs : list (option cbt_node_t)) :
  forallb empty_slot cs = true -> Forall (fun s => s = []) (map inorder_opt cs).
Proof.
  induction cs as [|[c|] cs IH]; cbn; intros H; [constructor | done |].
  constructor; auto.
Qed.

Lemma inorder_opt_replicate (k : nat) :
  Forall (fun s => s = []) (map inorder_opt (replicate k None)).
Proof. induction k; cbn; constructor; done. Qed.

(** ** Slots of a node whose [len] counts its entries *)

Lemma forallb_take {A : Type} (f : A -> bool) (l : list A) (m : nat) :
  forallb f l = true -> forallb f (take m l) = true.
Proof.
  revert m. induction l as [|x l IH]; intros [|m] H; cbn in *; try done.
  apply andb_prop in H as [Hx H]. rewrite Hx. cbn. auto.
Qed.

Lemma populated_length_full {A : Type} (a : list (option A)) :
  forallb populated_slot a = true -> length (populated a) = length a.
Proof.
  induction a as [|[x|] a IH]; cbn; intros H; [done | | done]. by rewrite IH.
Qed.

Lemma count_ok_len_nonneg nd : count_ok nd = true -> 0 <= len nd.
Proof.
  unfold count_ok. intros H.
  apply andb_prop in H as [H _]. apply andb_prop in H as [H _].
  apply andb_prop in H as [H _]. lia.
Qed.

Lemma count_ok_entries_head nd (m : nat) :
  count_ok nd = true -> (m <= Z.to_nat (len nd))%nat ->
  forallb populated_slot (take m (entry nd)) = true.
Proof.
  unfold count_ok. intros H Hm.
  apply andb_prop in H as [H _]. apply andb_prop in H as [H _].
  apply andb_prop in H as [_ H].
  replace (take m (entry nd)) with (take m (take (Z.to_nat (len nd)) (entry nd))).
  - by apply forallb_take.
  - rewrite take_take. f_equal. lia.
Qed.

Lemma count_ok_entries_middle nd (m k : nat) :
  count_ok nd = true -> (m + k <= Z.to_nat (len nd))%nat ->
  forallb populated_slot (take k (drop m (entry nd))) = true.
Proof.
  intros H Hm. rewrite take_drop_commute.
  apply forallb_drop. by apply count_ok_entries_head.
Qed.

Lemma count_ok_children_tail nd (m : nat) :
  count_ok nd = true -> (S (Z.to_nat (len nd)) <= m)%nat ->
  forallb empty_slot (drop m (children nd)) = true.
Proof.
  unfold count_ok. intros H Hm. apply andb_prop in H as [_ H].
  replace m with (S (Z.to_nat (len nd)) + (m - S (Z.to_nat (len nd))))%nat by lia.
  rewrite <- drop_drop. by apply forallb_drop.
Qed.

Lemma count_ok_entries_tail nd (m : nat) :
  count_ok nd = true -> (Z.to_nat (len nd) <= m)%nat ->
  forallb empty_slot (drop m (entry nd)) = true.
Proof.
  unfold count_ok. intros H Hm.
  apply andb_prop in H as [H _]. apply andb_prop in H as [_ H].
  replace m with (Z.to_nat (len nd) + (m - Z.to_nat (len nd)))%nat by lia.
  rewrite <- drop_drop. by apply forallb_drop.
Qed.

(** ** [bt_split_child], further *)

Section SplitMore.

Context (entry_cap child_cap : Z -> nat).

(** The two halves of a full node whose [len] counts its entries. *)
Lemma bt_split_child_halves nd (n : Z) :
  3 <= n -> is_full_node nd n = true -> count_ok nd = true ->
  room_to_split nd n -> alloc_ok entry_cap child_cap n ->
  exists p,
    entry nd !! (Z.to_nat (borrow_n n) - 1)%nat = Some (Some p) /\
    bt_split_child entry_cap child_cap nd n =
    Done (Node (take (Z.to_nat (borrow_n n) - 1) (entry nd)
                  ++ replicate (S (Z.to_nat n - Z.to_nat (borrow_n n))) None
                  ++ drop (Z.to_nat n) (entry nd))
               (take (Z.to_nat (borrow_n n)) (children nd)
                  ++ replicate (S (Z.to_nat n - Z.to_nat (borrow_n n))) None
                  ++ drop (S (Z.to_nat n)) (children nd))
               (Z.quot n 2),
          Some (Node (take (Z.to_nat n - Z.to_nat (borrow_n n))
                        (drop (Z.to_nat (borrow_n n)) (entry nd))
                        ++ replicate (entry_cap n
                                      - (Z.to_nat n - Z.to_nat (borrow_n n))) None)
                     (take (S (Z.to_nat n - Z.to_nat (borrow_n n)))
                        (drop (Z.to_nat (borrow_n n)) (children nd))
                        ++ replicate (child_cap n
                                      - S (Z.to_nat n - Z.to_nat (borrow_n n))) None)
                     (Z.quot n 2)),
          Some p).
Proof.
  intros Hn Hfull Hok Hroom Halloc.
  destruct (full_node_facts nd n Hn Hfull) as (Hlen & Hb & HbZ & HnZ).
  destruct (bt_split_child_shape entry_cap child_cap nd n Hn Hfull Hroom Halloc)
    as (e & He & Hsplit).
  destruct (count_ok_entry_populated nd (Z.to_nat (borrow_n n) - 1) Hok)
    as [p Hp]; [lia | destruct Hroom; lia |].
  rewrite Hp in He. injection He as <-. eauto.
Qed.

(** The entry array of a full node, cut where the split cuts it. *)
Lemma full_node_entries nd (n : Z) p :
  3 <= n -> is_full_node nd n = true -> room_to_split nd n ->
  entry nd !! (Z.to_nat (borrow_n n) - 1)%nat = Some (Some p) ->
  entry nd = take (Z.to_nat (borrow_n n) - 1) (entry nd) ++ Some p
               :: take (Z.to_nat n - Z.to_nat (borrow_n n))
                    (drop (Z.to_nat (borrow_n n)) (entry nd))
               ++ drop (Z.to_nat n) (entry nd).
Proof.
  intros Hn Hfull Hroom Hp.
  destruct (full_node_facts nd n Hn Hfull) as (Hlen & Hb & HbZ & HnZ).
  set (b := Z.to_nat (borrow_n n)) in *. set (N := Z.to_nat n) in *.
  rewrite <- (take_drop (b - 1) (entry nd)) at 1. f_equal.
  rewrite (drop_S _ _ _ Hp). f_equal.
  replace (S (b - 1)) with b by lia.
  rewrite <- (take_drop (N - b) (drop b (entry nd))) at 1. f_equal.
  rewrite drop_drop. f_equal. lia.
Qed.

(** The child array of a full node, cut where the split cuts it. *)
Lemma full_node_children nd (n : Z) :
  3 <= n -> is_full_node nd n = true ->
  children nd = take (Z.to_nat (borrow_n n)) (children nd)
                  ++ take (S (Z.to_nat n - Z.to_nat (borrow_n n)))
                       (drop (Z.to_nat (borrow_n n)) (children nd))
                  ++ drop (S (Z.to_nat n)) (children nd).
Proof.
  intros Hn Hfull.
  destruct (full_node_facts nd n Hn Hfull) as (Hlen & Hb & HbZ & HnZ).
  set (b := Z.to_nat (borrow_n n)) in *. set (N := Z.to_nat n) in *.
  rewrite <- (take_drop b (children nd)) at 1. f_equal.
  rewrite <- (take_drop (S (N - b)) (drop b (children nd))) at 1. f_equal.
  rewrite drop_drop. f_equal. lia.
Qed.

(** X1: the split of a full node neither loses nor duplicates a child:
    the children left in the node followed by the children of the new right
    node are the children the node had, in the same order. *)
Theorem bt_split_child_children_conserved nd (n : Z) :
  3 <= n -> is_full_node nd n = true -> count_ok nd = true ->
  room_to_split nd n -> alloc_ok entry_cap child_cap n ->
  exists left right promoted,
    bt_split_child entry_cap child_cap nd n = Done (left, Some right, promoted)
    /\ populated (children left) ++ populated (children right)
       = populated (children nd).
Proof.
  intros Hn Hfull Hok Hroom Halloc.
  destruct (full_node_facts nd n Hn Hfull) as (Hlen & Hb & HbZ & HnZ).
  destruct (bt_split_child_halves nd n Hn Hfull Hok Hroom Halloc) as (p & _ & ->).
  eexists _, _, _. split; [done |]. cbn [children].
  rewrite (f_equal populated (full_node_children nd n Hn Hfull)).
  rewrite !populated_app, !populated_replicate.
  rewrite (populated_empty (drop (S (Z.to_nat n)) (children nd)))
    by (apply count_ok_children_tail; [done | lia]).
  by rewrite !app_nil_r.
Qed.

(** X2: what the halves of a split full node hold: the node left in place
    keeps [borrow_n - 1] entries and the new right node receives
    [n / 2 - 1], one fewer than the [len] it is given. *)
Theorem bt_split_child_entry_counts nd (n : Z) :
  3 <= n -> is_full_node nd n = true -> count_ok nd = true ->
  room_to_split nd n -> alloc_ok entry_cap child_cap n ->
  exists left right promoted,
    bt_split_child entry_cap child_cap nd n = Done (left, Some right, promoted)
    /\ Z.of_nat (length (populated (entry left))) = borrow_n n - 1
    /\ Z.of_nat (length (populated (entry right))) = n / 2 - 1
    /\ len right = Z.of_nat (length (populated (entry right))) + 1.
Proof.
  intros Hn Hfull Hok Hroom Halloc.
  destruct (full_node_facts nd n Hn Hfull) as (Hlen & Hb & HbZ & HnZ).
  destruct (bt_split_child_halves nd n Hn Hfull Hok Hroom Halloc) as (p & _ & ->).
  destruct Hroom as [HE HC].
  set (b := Z.to_nat (borrow_n n)) in *. set (N := Z.to_nat n) in *.
  assert (Hleft : length (populated (take (b - 1) (entry nd))) = (b - 1)%nat).
  { rewrite populated_length_full by (apply count_ok_entries_head; [done | lia]).
    rewrite length_take. lia. }
  assert (Hright : length (populated (take (N - b) (drop b (entry nd))))
                   = (N - 1 - b)%nat).
  { replace (N - b)%nat with (S (N - 1 - b)) by lia.
    rewrite (take_S_r _ _ None).
    2:{ rewrite lookup_drop. apply count_ok_entry_empty; [done | lia]. }
    rewrite populated_app. cbn [populated]. rewrite app_nil_r.
    rewrite populated_length_full
      by (apply count_ok_entries_middle; [done | lia]).
    rewrite length_take, length_drop. lia. }
  assert (Hhalf : n / 2 - 1 = Z.of_nat (N - 1 - b)).
  { assert (Hbn : borrow_n n = (n + 1) / 2) by apply borrow_n_half.
    assert (Z.of_nat (N - 1 - b) = n - 1 - borrow_n n) by lia.
    rewrite H, Hbn. Z.div_mod_to_equations. lia. }
  eexists _, _, _. split; [done |]. cbn [entry len].
  rewrite !populated_app, !populated_replicate.
  rewrite (count_ok_tail_empty nd N Hok) by lia.
  rewrite !app_nil_r, Hleft, Hright.
  rewrite Z.quot_div_nonneg by lia. lia.
Qed.

Lemma ascending_from_lower (ks : list Z) :
  forall a, ascending_from (Some a) ks = true -> forall k, In k ks -> a < k.
Proof.
  induction ks as [|k1 ks IH]; intros a H k Hin; cbn in *; [done |].
  apply andb_prop in H as [Ha H]. apply Z.ltb_lt in Ha.
  destruct Hin as [<- | Hin]; [done |].
  specialize (IH k1 H k Hin). lia.
Qed.

Lemma ascending_from_split (L R : list Z) (p : Z) :
  forall lo,
    ascending_from lo (L ++ p :: R) = true ->
    (forall x, In x L -> x < p) /\ (forall y, In y R -> p < y).
Proof.
  induction L as [|x L IH]; intros lo H; cbn [app ascending_from] in H.
  - apply andb_prop in H as [_ H]. split; [intros x [] |].
    by apply ascending_from_lower.
  - apply andb_prop in H as [_ H].
    pose proof (ascending_from_lower _ _ H p) as Hxp.
    destruct (IH _ H) as [HL HR]. split; [| done].
    intros y [<- | Hy]; [| auto].
    apply Hxp. apply in_or_app. right. by left.
Qed.

(** X3: when the keys of a full node are strictly ascending, the promoted
    entry separates the halves: every key left in the node is below the
    promoted key and every key of the new right node is above it. *)
Theorem bt_split_child_separates nd (n : Z) :
  3 <= n -> is_full_node nd n = true -> count_ok nd = true ->
  room_to_split nd n -> alloc_ok entry_cap child_cap n ->
  ascending_from None (map key (populated (entry nd))) = true ->
  exists left right promoted,
    bt_split_child entry_cap child_cap nd n
    = Done (left, Some right, Some promoted)
    /\ (forall x, In x (populated (entry left)) -> key x < key promoted)
    /\ (forall y, In y (populated (entry right)) -> key promoted < key y).
Proof.
  intros Hn Hfull Hok Hroom Halloc Hasc.
  destruct (full_node_facts nd n Hn Hfull) as (Hlen & Hb & HbZ & HnZ).
  destruct (bt_split_child_halves nd n Hn Hfull Hok Hroom Halloc) as (p & Hp & ->).
  rewrite (full_node_entries nd n p Hn Hfull Hroom Hp) in Hasc.
  rewrite populated_app in Hasc. cbn [populated] in Hasc.
  rewrite populated_app in Hasc.
  rewrite (count_ok_tail_empty nd (Z.to_nat n) Hok) in Hasc by lia.
  rewrite app_nil_r, map_app in Hasc. cbn [map] in Hasc.
  apply ascending_from_split in Hasc as [HL HR].
  eexists _, _, p. split; [done |]. cbn [entry].
  rewrite !populated_app, !populated_replicate.
  rewrite (count_ok_tail_empty nd (Z.to_nat n) Hok) by lia.
  rewrite !app_nil_r. split.
  - intros x Hx. apply HL. by apply in_map.
  - intros y Hy. apply HR. by apply in_map.
Qed.

Lemma list_cut_at {A : Type} (l : list A) (b N : nat) (x : A) :
  (1 <= b <= N)%nat -> l !! (b - 1)%nat = Some x ->
  l = take (b - 1) l ++ x :: take (N - b) (drop b l) ++ drop N l.
Proof.
  intros Hb Hx.
  rewrite <- (take_drop (b - 1) l) at 1. f_equal.
  rewrite (drop_S _ _ _ Hx). f_equal.
  replace (S (b - 1)) with b by lia.
  rewrite <- (take_drop (N - b) (drop b l)) at 1. f_equal.
  rewrite drop_drop. f_equal. lia.
Qed.

Lemma bt_split_child_halves_inorder nd (n : Z) :
  3 <= n -> is_full_node nd n = true -> count_ok nd = true ->
  room_to_split nd n -> alloc_ok entry_cap child_cap n ->
  exists left right promoted,
    bt_split_child entry_cap child_cap nd n
    = Done (left, Some right, Some promoted)
    /\ inorder left ++ promoted :: inorder right = inorder nd.
Proof.
  intros Hn Hfull Hok Hroom Halloc.
  destruct (full_node_facts nd n Hn Hfull) as (Hlen & Hb & HbZ & HnZ).
  destruct (bt_split_child_halves nd n Hn Hfull Hok Hroom Halloc) as (p & Hp & ->).
  destruct Hroom as [HE HC].
  destruct nd as [E C l]. cbn [entry children len] in *.
  set (b := Z.to_nat (borrow_n n)) in *. set (N := Z.to_nat n) in *.
  destruct (lookup_lt_is_Some_2 C (b - 1)) as [c Hc]; [lia |].
  pose proof (count_ok_child_empty _ N Hok ltac:(cbn [len children]; lia)) as HcN.
  pose proof (count_ok_children_tail _ N Hok ltac:(cbn [len]; lia)) as HCt.
  pose proof (count_ok_tail_empty _ N Hok ltac:(cbn [len]; lia)) as HEt.
  cbn [entry children len] in HcN, HCt, HEt.
  eexists _, _, p. split; [done |].
  rewrite !inorder_Node.
  (* the node as it was *)
  assert (Hnd : interleave (map inorder_opt C) E
                = interleave (map inorder_opt (take (b - 1) C)) (take (b - 1) E)
                    ++ inorder_opt c
                    ++ p :: interleave (map inorder_opt (take (N - b) (drop b C)))
                              (take (N - b) (drop b E))).
  { rewrite (list_cut_at C b N c) at 1 by (lia || done).
    rewrite (list_cut_at E b N (Some p)) at 1 by (lia || done).
    rewrite !map_app. cbn [map].
    rewrite (interleave_app (map inorder_opt (take (b - 1) C)))
      by (rewrite length_map, !length_take; lia).
    cbn [interleave populated app]. rewrite map_app.
    rewrite (interleave_app (map inorder_opt (take (N - b) (drop b C))))
      by (rewrite length_map, !length_take, !length_drop; lia).
    rewrite (interleave_no_children (map inorder_opt (drop N C)))
      by (by apply inorder_opt_empty).
    by rewrite HEt, app_nil_r. }
  rewrite Hnd. clear Hnd.
  (* the node left in place *)
  replace (take b C) with (take (b - 1) C ++ [c]).
  2:{ rewrite <- (take_S_r _ _ _ Hc). f_equal. lia. }
  rewrite <- !app_assoc. rewrite !map_app.
  rewrite (interleave_app (map inorder_opt (take (b - 1) C)))
    by (rewrite length_map, !length_take; lia).
  cbn [map app].
  rewrite (interleave_no_entries (replicate _ None ++ drop N E)).
  2:{ by rewrite populated_app, populated_replicate, HEt. }
  cbn [concat]. rewrite <- map_app.
  rewrite concat_no_children.
  2:{ apply inorder_opt_empty. rewrite forallb_app.
      rewrite forallb_empty_replicate. cbn [andb].
      replace (S N) with (N + 1)%nat by lia. rewrite <- drop_drop.
      by apply forallb_drop. }
  rewrite app_nil_r.
  (* the new right node *)
  rewrite (take_S_r _ (N - b) None).
  2:{ rewrite lookup_drop, <- HcN. f_equal. lia. }
  rewrite !map_app, <- !app_assoc.
  rewrite (interleave_app (map inorder_opt (take (N - b) (drop b C))))
    by (rewrite length_map, !length_take, !length_drop; lia).
  rewrite <- map_app.
  rewrite (interleave_no_children (map inorder_opt ([None] ++ _))).
  2:{ apply inorder_opt_empty. rewrite forallb_app.
      by rewrite forallb_empty_replicate. }
  by rewrite populated_replicate, app_nil_r.
Qed.

(** X4: the split of a full node keeps every entry below it and their
    order: the entries reachable from the node left in place, then the
    promoted entry, then the entries reachable from the new right node are
    the entries that were reachable from the node. *)
Theorem bt_split_child_inorder nd (n : Z) :
  3 <= n -> is_full_node nd n = true -> count_ok nd = true ->
  room_to_split nd n -> alloc_ok entry_cap child_cap n ->
  exists left right promoted,
    bt_split_child entry_cap child_cap nd n
    = Done (left, Some right, Some promoted)
    /\ inorder left ++ promoted :: inorder right = inorder nd.
Proof. apply bt_split_child_halves_inorder. Qed.

End SplitMore.

(** ** [split_full_root] and [bt_insert_helper], further *)

Section EngineMore.

Context (entry_cap child_cap : Z -> nat).

Lemma split_full_root_of_halves nd (n : Z) left right p :
  3 <= n -> alloc_ok entry_cap child_cap n ->
  bt_split_child entry_cap child_cap nd n = Done (left, Some right, Some p) ->
  split_full_root entry_cap child_cap nd n
  = Done (Grown (Node (Some p :: replicate (entry_cap n - 1) None)
                      (Some left :: Some right
                         :: replicate (child_cap n - 2) None) 1)).
Proof.
  intros Hn Halloc Hsplit. unfold split_full_root.
  rewrite Hsplit. cbn [mbind result_bind].
  rewrite node_insert_entry_fresh by done. cbn [mbind result_bind].
  destruct Halloc as [He Hc].
  unfold set_children. cbn [entry children len].
  rewrite (arr_set_ok _ 0) by (rewrite length_replicate; lia).
  cbn [mbind result_bind].
  rewrite (arr_set_ok _ 1) by (rewrite length_insert, length_replicate; lia).
  cbn [mbind result_bind].
  destruct (child_cap n) as [|[|c]]; [lia | lia |].
  cbn. by rewrite Nat.sub_0_r.
Qed.

Lemma inorder_new_root left right p (ec cc : nat) l :
  inorder (Node (Some p :: replicate ec None)
                (Some left :: Some right :: replicate cc None) l)
  = inorder left ++ p :: inorder right.
Proof.
  rewrite inorder_Node. cbn [map inorder_opt].
  rewrite interleave_cons. cbn [populated app].
  rewrite interleave_no_entries by apply populated_replicate.
  cbn [concat].
  rewrite concat_no_children by apply inorder_opt_replicate.
  by rewrite app_nil_r.
Qed.

(** X5: a root split keeps every entry of the tree and their order: the
    entries reachable from the new root are the entries that were
    reachable from the old one. *)
Theorem split_full_root_inorder nd (n : Z) :
  3 <= n -> is_full_node nd n = true -> count_ok nd = true ->
  room_to_split nd n -> alloc_ok entry_cap child_cap n ->
  exists new_root,
    split_full_root entry_cap child_cap nd n = Done (Grown new_root)
    /\ inorder new_root = inorder nd.
Proof.
  intros Hn Hfull Hok Hroom Halloc.
  destruct (bt_split_child_halves_inorder entry_cap child_cap nd n
              Hn Hfull Hok Hroom Halloc) as (left & right & p & Hsplit & <-).
  eexists. split; [by apply split_full_root_of_halves |].
  apply inorder_new_root.
Qed.

(** X6: a root split adds exactly one level: the new root is one higher
    than the full root it replaces. *)
Theorem split_full_root_height nd (n : Z) :
  3 <= n -> is_full_node nd n = true -> count_ok nd = true ->
  room_to_split nd n -> alloc_ok entry_cap child_cap n ->
  exists new_root,
    split_full_root entry_cap child_cap nd n = Done (Grown new_root)
    /\ height new_root = S (height nd).
Proof.
  intros Hn Hfull Hok Hroom Halloc.
  destruct (bt_split_child_halves entry_cap child_cap nd n
              Hn Hfull Hok Hroom Halloc) as (p & _ & Hsplit).
  eexists. split; [by eapply split_full_root_of_halves |].
  rewrite !height_Node. cbn [heights]. rewrite !height_Node.
  rewrite (height_children nd).
  rewrite (f_equal heights (full_node_children nd n Hn Hfull)).
  rewrite !heights_app, !heights_replicate. lia.
Qed.

(** X7: one insertion raises the tree by at most one level, whatever the
    tree and the key. *)
Theorem insert_height_step fuel bt e bt' :
  3 <= n bt -> alloc_ok entry_cap child_cap (n bt) ->
  insert entry_cap child_cap fuel bt e = Done bt' ->
  (height_opt (root bt') <= S (height_opt (root bt)))%nat.
Proof.
  intros Hn Halloc H. unfold insert in H.
  unbind H as eff Heff. injection H as <-.
  destruct (root bt) as [nd|] eqn:Hroot.
  - destruct fuel as [|fuel]; [done |].
    cbn [bt_insert_helper] in Heff. unbind Heff as s Hs.
    pose proof (bt_insert_helper_body_Done _ _ _ _ _ _ _ Hn Halloc Hs) as Hbody.
    cbn [height_opt].
    destruct s as [r|r|r idx].
    + destruct Hbody as (_ & _ & _ & Hr & Hnf).
      apply bt_insert_helper_height in Heff; [| done | done | done].
      destruct eff; cbn [commit root height_opt]; lia.
    + injection Heff as <-. cbn [commit root height_opt]. lia.
    + unbind Heff as c Hc. unbind Heff as eff' Heff'.
      destruct c as [c|].
      * apply bt_insert_helper_height in Heff'; [| done | done | done].
        apply arr_get_height in Hc. cbn [height_opt] in Hc.
        rewrite (height_children r) in Hbody.
        destruct eff' as [c'|r' k].
        -- unbind Heff as cs Hcs. injection Heff as <-.
           apply arr_set_heights in Hcs. cbn [height_opt] in Hcs.
           cbn [commit root height_opt]. rewrite height_children.
           cbn [children set_children]. lia.
        -- injection Heff as <-. cbn [commit root height_opt].
           rewrite (height_children nd). lia.
      * rewrite bt_insert_helper_absent in Heff' by done.
        injection Heff' as <-. injection Heff as <-.
        cbn [commit root height_opt].
        rewrite height_Node, heights_replicate. lia.
  - rewrite bt_insert_helper_absent in Heff by done. injection Heff as <-.
    cbn [commit root height_opt]. rewrite height_Node, heights_replicate. lia.
Qed.

Lemma body_child_not_full bt at_root root e idx child :
  (at_root = true -> is_full_node root (n bt) = false) ->
  get_next_node_index root (key e) (n bt) = Done idx ->
  arr_get (children root) idx = Done (Some child) ->
  is_full_node child (n bt) = false ->
  bt_insert_helper_body entry_cap child_cap bt at_root root e
  = Done (Descend root idx)
  /\ forall fuel,
       bt_insert_helper entry_cap child_cap (S fuel) bt at_root (Some root) e
       = (eff ← bt_insert_helper entry_cap child_cap fuel bt false (Some child) e;
          match eff with
          | InPlace c' =>
              Done (InPlace (set_children root
                               (<[Z.to_nat idx := Some c']> (children root))))
          | Reset r k => Done (Reset r k)
          end).
Proof.
  intros Hroot Hidx Hget Hnf.
  assert (Hbody : bt_insert_helper_body entry_cap child_cap bt at_root root e
                  = Done (Descend root idx)).
  { unfold bt_insert_helper_body.
    assert (Hs : (if at_root then split_full_root entry_cap child_cap root (n bt)
                  else Done (Same root)) = Done (Same root)).
    { destruct at_root; [| done]. apply split_full_root_not_full. auto. }
    rewrite Hs. cbn [mbind result_bind].
    rewrite Hidx. cbn [mbind result_bind].
    rewrite Hget. cbn [mbind result_bind is_leaf].
    rewrite bt_split_child_not_full by done. cbn [mbind result_bind].
    pose proof (arr_get_Done _ _ _ Hget) as [Hi Hl].
    rewrite arr_set_ok by (apply lookup_lt_Some in Hl; lia).
    cbn [mbind result_bind].
    rewrite list_insert_id by done. destruct root. done. }
  split; [done |].
  intros fuel. cbn [bt_insert_helper]. rewrite Hbody.
  cbn [mbind result_bind]. rewrite Hget. cbn [mbind result_bind].
  destruct (bt_insert_helper entry_cap child_cap fuel bt false (Some child) e)
    as [[c'|r k]| |]; cbn [mbind result_bind]; try done.
  pose proof (arr_get_Done _ _ _ Hget) as [Hi Hl].
  rewrite arr_set_ok by (apply lookup_lt_Some in Hl; lia). done.
Qed.

(** X8: a selected child that is not full is descended into as it is:
    no node is created, the current node is left untouched and the child
    index is the one first computed. *)
Theorem bt_insert_helper_body_child_not_full bt at_root root e idx child :
  (at_root = true -> is_full_node root (n bt) = false) ->
  get_next_node_index root (key e) (n bt) = Done idx ->
  arr_get (children root) idx = Done (Some child) ->
  is_full_node child (n bt) = false ->
  bt_insert_helper_body entry_cap child_cap bt at_root root e
  = Done (Descend root idx)
  /\ forall fuel,
       bt_insert_helper entry_cap child_cap (S fuel) bt at_root (Some root) e
       = (eff ← bt_insert_helper entry_cap child_cap fuel bt false (Some child) e;
          match eff with
          | InPlace c' =>
              Done (InPlace (set_children root
                               (<[Z.to_nat idx := Some c']> (children root))))
          | Reset r k => Done (Reset r k)
          end).
Proof. apply body_child_not_full. Qed.

(** X9: the first insertion needs no recursion and cannot fault: on an
    empty tree it returns, for any fuel, a tree whose root is a single node
    holding exactly the inserted entry, with [len = 1] and no child, and
    the structural invariants hold. *)
Theorem insert_first fuel bt e :
  3 <= n bt -> alloc_ok entry_cap child_cap (n bt) -> root bt = None ->
  exists r,
    insert entry_cap child_cap fuel bt e
    = Done (Tree (Some r) (n bt) (key e) (key e))
    /\ inorder r = [e] /\ len r = 1 /\ height r = 1%nat
    /\ tree_inv (Tree (Some r) (n bt) (key e) (key e)) = true.
Proof.
  intros Hn Halloc Hroot. eexists. split; [by apply insert_empty |].
  destruct Halloc as [He Hc].
  split; [| split; [done | split]].
  - unfold leaf_node. rewrite inorder_Node. cbn [fmap list_fmap app length].
    destruct (child_cap (n bt)) as [|c]; [lia |].
    cbn [replicate map inorder_opt]. rewrite interleave_cons.
    cbn [populated app].
    rewrite interleave_no_entries by apply populated_replicate.
    by rewrite concat_no_children by apply inorder_opt_replicate.
  - unfold leaf_node. by rewrite height_Node, heights_replicate.
  - unfold tree_inv. cbn [root n]. apply node_inv_leaf; [cbn; lia | done].
Qed.

Lemma populated_slots_Some {A : Type} (a : list (option A)) :
  forallb populated_slot a = true -> Some <$> populated a = a.
Proof.
  induction a as [|[x|] a IH]; cbn; intros H; [done | | done]. by rewrite IH.
Qed.

Lemma empty_slots_replicate {A : Type} (a : list (option A)) :
  forallb empty_slot a = true -> a = replicate (length a) None.
Proof.
  induction a as [|[x|] a IH]; cbn; intros H; [done | done |]. by rewrite <- IH.
Qed.

Lemma count_ok_leaf_node nd :
  count_ok nd = true -> forallb empty_slot (children nd) = true ->
  len nd <= Z.of_nat (length (entry nd)) ->
  nd = leaf_node (length (entry nd)) (length (children nd)) (populated (entry nd)).
Proof.
  intros Hok Hch Hlen. pose proof (count_ok_len_nonneg nd Hok) as H0.
  pose proof (count_ok_entries_head nd (Z.to_nat (len nd)) Hok ltac:(lia)) as Hh.
  pose proof (count_ok_entries_tail nd (Z.to_nat (len nd)) Hok ltac:(lia)) as Ht.
  destruct nd as [E C l]. cbn [entry children len] in *. unfold leaf_node.
  assert (Hpop : populated E = populated (take (Z.to_nat l) E)).
  { rewrite <- (take_drop (Z.to_nat l) E) at 1.
    by rewrite populated_app, (populated_empty _ Ht), app_nil_r. }
  assert (Hcnt : length (populated E) = Z.to_nat l).
  { rewrite Hpop, populated_length_full by done. rewrite length_take. lia. }
  f_equal.
  - rewrite <- (take_drop (Z.to_nat l) E) at 1. f_equal.
    + by rewrite Hpop, populated_slots_Some.
    + rewrite (empty_slots_replicate _ Ht), length_drop. f_equal. lia.
  - by apply empty_slots_replicate.
  - lia.
Qed.

Lemma inorder_leaf_node ec cc (s : list cbt_entry_t) :
  inorder (leaf_node ec cc s) = s.
Proof.
  unfold leaf_node. rewrite inorder_Node.
  rewrite interleave_no_children by apply inorder_opt_replicate.
  by rewrite populated_app, populated_replicate, app_nil_r, populated_Some.
Qed.

(** X10: on a tree that is a single node with spare room, the entry is
    stored in that node at the place its key gives it: the entries after
    the insert are the entries before with the new one placed among them,
    the node stays without children and [max_key] and [min_key] are not
    touched. *)
Theorem insert_single_node fuel bt nd e :
  root bt = Some nd -> count_ok nd = true ->
  forallb empty_slot (children nd) = true ->
  len nd < n bt - 1 ->
  len nd < Z.of_nat (length (entry nd)) ->
  len nd + 1 < Z.of_nat (length (children nd)) ->
  exists r,
    insert entry_cap child_cap (S fuel) bt e
    = Done (Tree (Some r) (n bt) (max_key bt) (min_key bt))
    /\ inorder r = place e (inorder nd)
    /\ len r = len nd + 1 /\ height r = 1%nat.
Proof.
  intros Hroot Hok Hch Hn HE HC.
  pose proof (count_ok_len_nonneg nd Hok) as H0.
  pose proof (count_ok_leaf_node nd Hok Hch ltac:(lia)) as Hleaf.
  assert (Hcnt : Z.of_nat (length (populated (entry nd))) = len nd).
  { rewrite Hleaf at 2. unfold leaf_node. cbn [len]. done. }
  rewrite Hleaf in Hroot.
  eexists. split.
  - apply (insert_leaf entry_cap child_cap fuel bt _ _ _ e Hroot); lia.
  - rewrite !inorder_leaf_node. split; [| split].
    + rewrite Hleaf at 2. by rewrite inorder_leaf_node.
    + unfold leaf_node. cbn [len]. rewrite place_length. lia.
    + unfold leaf_node. by rewrite height_Node, heights_replicate.
Qed.

End EngineMore.

(** ** Insertion where no node needs a split *)

Lemma spare_Node (n : Z) E C l :
  spare n (Node E C l)
  = count_ok (Node E C l) && (l <? n - 1)
    && (l <? Z.of_nat (length E)) && (l + 1 <? Z.of_nat (length C))
    && forallb (spare_opt (spare n)) C.
Proof.
  cbn [spare]. f_equal.
  induction C as [|[c|] C IH]; cbn [forallb spare_opt]; [done | | done].
  by rewrite IH.
Qed.

Lemma spare_facts (n : Z) nd :
  spare n nd = true ->
  count_ok nd = true /\ len nd < n - 1
  /\ len nd < Z.of_nat (length (entry nd))
  /\ len nd + 1 < Z.of_nat (length (children nd))
  /\ forall (i : nat) c, children nd !! i = Some (Some c) -> spare n c = true.
Proof.
  destruct nd as [E C l]. rewrite spare_Node. cbn [entry children len].
  intros H.
  apply andb_prop in H as [H Hch]. apply andb_prop in H as [H HC].
  apply andb_prop in H as [H HE]. apply andb_prop in H as [Hok Hn].
  repeat split; try done; try lia.
  intros i c Hi. apply (forallb_lookup _ _ _ _ Hch Hi).
Qed.

Lemma interleave_concat (subs : list (list cbt_entry_t)) :
  forall es, Permutation (interleave subs es) (concat subs ++ populated es).
Proof.
  induction subs as [|s subs IH]; intros es; cbn [interleave concat app]; [done |].
  rewrite <- app_assoc. apply Permutation_app_head.
  destruct es as [|[x|] es]; cbn [populated app].
  - apply IH.
  - rewrite IH. apply Permutation_middle.
  - apply IH.
Qed.

Lemma inorder_concat nd :
  Permutation (inorder nd)
    (concat (map inorder_opt (children nd)) ++ populated (entry nd)).
Proof. destruct nd as [E C l]. rewrite inorder_Node. apply interleave_concat. Qed.

Lemma get_next_node_index_count_ok nd (k n : Z) :
  count_ok nd = true -> len nd <= Z.of_nat (length (entry nd)) ->
  exists idx,
    get_next_node_index nd k n = Done idx /\ 0 <= idx <= len nd.
Proof.
  intros Hok Hlen. pose proof (count_ok_len_nonneg nd Hok) as H0.
  pose proof (count_ok_entries_head nd (Z.to_nat (len nd)) Hok ltac:(lia)) as Hh.
  unfold get_next_node_index.
  set (s := populated (take (Z.to_nat (len nd)) (entry nd))).
  assert (Hs : length s = Z.to_nat (len nd)).
  { unfold s. rewrite populated_length_full by done. rewrite length_take. lia. }
  assert (HE : entry nd = [] ++ (Some <$> s) ++ drop (Z.to_nat (len nd)) (entry nd)).
  { cbn [app]. unfold s. rewrite populated_slots_Some by done.
    by rewrite take_drop. }
  rewrite HE, <- Hs.
  rewrite (next_index_from_sorted s [] _ k). cbn [length Nat.add].
  eexists. split; [done |]. pose proof (pos_le k s). lia.
Qed.

Lemma concat_inorder_app (a b : list (option cbt_node_t)) :
  concat (map inorder_opt (a ++ b))
  = concat (map inorder_opt a) ++ concat (map inorder_opt b).
Proof. by rewrite map_app, concat_app. Qed.

Lemma concat_inorder_empty (a : list (option cbt_node_t)) :
  forallb empty_slot a = true -> concat (map inorder_opt a) = [].
Proof. intros H. by apply concat_no_children, inorder_opt_empty. Qed.

(** The entries below a node after [node_insert_entry], up to order. *)
Lemma node_insert_entry_inorder nd e (n : Z) nd' (p : Z) :
  count_ok nd = true ->
  node_insert_entry nd e true n = Done (nd', p) ->
  Permutation (inorder nd') (e :: inorder nd).
Proof.
  intros Hok H. pose proof (count_ok_len_nonneg nd Hok) as H0.
  apply node_insert_entry_Done in H as (_ & Hp & HE & HC & _).
  apply get_next_node_index_range in Hp.
  apply shift_in_Done in HE as (HpE & HcE & HE).
  apply shift_in_Done in HC as (HpC & HcC & HC).
  rewrite (inorder_concat nd'), (inorder_concat nd), HE, HC.
  rewrite !concat_inorder_app. cbn [map inorder_opt concat app].
  rewrite !concat_inorder_app.
  rewrite !populated_app. cbn [populated]. rewrite !populated_app.
  rewrite (concat_inorder_empty (drop (Z.to_nat (len nd + 1 + 1)) (children nd)))
    by (apply count_ok_children_tail; [done | lia]).
  rewrite (populated_empty (drop (Z.to_nat (len nd + 1)) (entry nd)))
    by (apply count_ok_entries_tail; [done | lia]).
  rewrite !app_nil_r.
  assert (HCd : concat (map inorder_opt (children nd))
                = concat (map inorder_opt (take (Z.to_nat (p + 1)) (children nd)))
                  ++ concat (map inorder_opt
                               (take (Z.to_nat (len nd + 1 - (p + 1)))
                                  (drop (Z.to_nat (p + 1)) (children nd))))).
  { rewrite <- (take_drop (Z.to_nat (p + 1)) (children nd)) at 1.
    rewrite concat_inorder_app. f_equal.
    rewrite <- (take_drop (Z.to_nat (len nd + 1 - (p + 1)))
                  (drop (Z.to_nat (p + 1)) (children nd))) at 1.
    rewrite concat_inorder_app.
    rewrite (concat_inorder_empty (drop _ (drop _ _))); [by rewrite app_nil_r |].
    rewrite drop_drop. apply count_ok_children_tail; [done | lia]. }
  assert (HEd : populated (entry nd)
                = populated (take (Z.to_nat p) (entry nd))
                  ++ populated (take (Z.to_nat (len nd - p))
                                  (drop (Z.to_nat p) (entry nd)))).
  { rewrite <- (take_drop (Z.to_nat p) (entry nd)) at 1.
    rewrite populated_app. f_equal.
    rewrite <- (take_drop (Z.to_nat (len nd - p))
                  (drop (Z.to_nat p) (entry nd))) at 1.
    rewrite populated_app.
    rewrite (populated_empty (drop _ (drop _ _))); [by rewrite app_nil_r |].
    rewrite drop_drop. apply count_ok_entries_tail; [done | lia]. }
  rewrite HCd, HEd. rewrite !app_assoc. symmetry. apply Permutation_middle.
Qed.

Lemma arr_get_ok {A : Type} (a : list (option A)) (i : Z) (x : option A) :
  0 <= i -> a !! Z.to_nat i = Some x -> arr_get a i = Done x.
Proof.
  intros Hi Hx. unfold arr_get.
  destruct (Z.leb_spec 0 i); [| lia]. by rewrite Hx.
Qed.

Lemma shift_in_ok {A : Type} (a : list (option A)) (p cnt : Z) (x : option A) :
  0 <= p <= cnt -> cnt < Z.of_nat (length a) ->
  exists a', shift_in a p cnt x = Done a'.
Proof.
  intros Hp Hc. unfold shift_in.
  destruct (Z.leb_spec 0 p); [| lia].
  destruct (Z.leb_spec p cnt); [| lia].
  destruct (Z.ltb_spec cnt (Z.of_nat (length a))); [| lia].
  cbn [andb]. eauto.
Qed.

Lemma inorder_replace_child nd (i : nat) child c' e :
  children nd !! i = Some (Some child) ->
  Permutation (inorder c') (e :: inorder child) ->
  Permutation (inorder (set_children nd (<[i := Some c']> (children nd))))
    (e :: inorder nd).
Proof.
  intros Hi Hperm.
  rewrite (inorder_concat (set_children _ _)), (inorder_concat nd).
  cbn [children entry set_children].
  rewrite insert_take_drop by (by apply lookup_lt_Some in Hi).
  rewrite <- (take_drop_middle (children nd) i (Some child) Hi) at 3.
  rewrite !concat_inorder_app. cbn [map inorder_opt concat].
  rewrite Hperm. cbn [app]. rewrite <- !app_assoc. cbn [app].
  rewrite <- !app_assoc. symmetry. apply Permutation_middle.
Qed.

Section NoSplit.

Context (entry_cap child_cap : Z -> nat).

Lemma bt_insert_helper_spare fuel :
  forall bt at_root nd e,
    spare (n bt) nd = true -> (height nd <= fuel)%nat ->
    exists r,
      bt_insert_helper entry_cap child_cap fuel bt at_root (Some nd) e
      = Done (InPlace r)
      /\ Permutation (inorder r) (e :: inorder nd).
Proof.
  induction fuel as [|fuel IH]; intros bt at_root nd e Hsp Hh.
  - rewrite height_children in Hh. lia.
  - apply spare_facts in Hsp as (Hok & Hn & HE & HC & Hch).
    pose proof (count_ok_len_nonneg nd Hok) as H0.
    assert (Hnf : is_full_node nd (n bt) = false).
    { unfold is_full_node. apply Z.eqb_neq. lia. }
    destruct (get_next_node_index_count_ok nd (key e) (n bt) Hok ltac:(lia))
      as (idx & Hidx & Hr).
    destruct (lookup_lt_is_Some_2 (children nd) (Z.to_nat idx)) as [c Hc]; [lia |].
    pose proof (arr_get_ok (children nd) idx c ltac:(lia) Hc) as Hget.
    destruct c as [child|].
    + destruct (body_child_not_full entry_cap child_cap bt at_root nd e idx child)
        as [_ Hstep]; [auto | done | done | |].
      { apply Hch in Hc. apply spare_facts in Hc as (_ & Hcn & _).
        unfold is_full_node. apply Z.eqb_neq. lia. }
      rewrite Hstep.
      destruct (IH bt false child e) as (c' & -> & Hperm).
      { by eapply Hch. }
      { apply arr_get_height in Hget. cbn [height_opt] in Hget.
        rewrite (height_children nd) in Hh. lia. }
      cbn [mbind result_bind]. eexists. split; [done |].
      by eapply inorder_replace_child.
    + destruct (shift_in_ok (entry nd) idx (len nd) (Some e)) as [es Hes]; [lia | lia |].
      destruct (shift_in_ok (children nd) (idx + 1) (len nd + 1) None)
        as [cs Hcs]; [lia | lia |].
      assert (Hins : node_insert_entry nd e true (n bt)
                     = Done (Node es cs (len nd + 1), idx)).
      { unfold node_insert_entry. rewrite Hnf, Hidx. cbn [mbind result_bind].
        rewrite Hes. cbn [mbind result_bind]. by rewrite Hcs. }
      exists (Node es cs (len nd + 1)). split.
      * cbn [bt_insert_helper]. unfold bt_insert_helper_body.
        assert (Hs : (if at_root
                      then split_full_root entry_cap child_cap nd (n bt)
                      else Done (Same nd)) = Done (Same nd)).
        { destruct at_root; [| done]. by apply split_full_root_not_full. }
        rewrite Hs. cbn [mbind result_bind].
        rewrite Hidx. cbn [mbind result_bind].
        rewrite Hget. cbn [mbind result_bind is_leaf].
        rewrite Hins. done.
      * by eapply node_insert_entry_inorder.
Qed.

(** X11: in a tree where no node is full and every node has an unused
    slot, an insertion returns without a fault and without a split, and the
    entries of the tree afterwards are the entries before plus the inserted
    one; [max_key] and [min_key] are not touched. *)
Theorem insert_without_split fuel bt nd e :
  root bt = Some nd -> spare (n bt) nd = true -> (height nd <= fuel)%nat ->
  exists r,
    insert entry_cap child_cap fuel bt e
    = Done (Tree (Some r) (n bt) (max_key bt) (min_key bt))
    /\ Permutation (inorder r) (e :: inorder nd).
Proof.
  intros Hroot Hsp Hh. unfold insert. rewrite Hroot.
  destruct (bt_insert_helper_spare fuel bt true nd e Hsp Hh) as (r & -> & Hperm).
  cbn [mbind result_bind commit]. eauto.
Qed.

End NoSplit.

(** ** The ordering invariant along a descent *)

Lemma node_inv_Node (n : Z) lo hi E C l :
  node_inv n lo hi (Node E C l)
  = (0 <=? l) && (l <=? n - 1) && count_ok (Node E C l)
    && ascending_from None (map key (populated E))
    && forallb (within lo hi) (map key (populated E))
    && (forallb empty_slot (take (S (Z.to_nat l)) C)
        || kids_inv (node_inv n) hi C lo (map key (populated E))).
Proof.
  cbn [node_inv]. do 2 f_equal.
  generalize (map key (populated E)) as ks. revert lo.
  induction C as [|[c|] C IH]; intros lo ks; cbn [kids_inv]; [done | | done].
  destruct ks as [|k ks]; [done |]. by rewrite IH.
Qed.

Lemma within_weaken lo hi lo' hi' (k : Z) :
  within lo' hi' k = true -> lower_le lo lo' -> upper_le hi' hi ->
  within lo hi k = true.
Proof.
  unfold within, lower_le, upper_le. intros H Hlo Hhi. apply andb_prop in H as [H1 H2].
  apply andb_true_intro. split.
  - destruct lo as [a|]; [| done]. destruct lo' as [a'|]; [| done].
    apply Z.leb_le. apply Z.leb_le in H1. lia.
  - destruct hi as [b|]; [| done]. destruct hi' as [b'|]; [| done].
    apply Z.ltb_lt. apply Z.ltb_lt in H2. lia.
Qed.

Lemma within_lower lo hi (k : Z) :
  within lo hi k = true -> match lo with Some a => a <= k | None => True end.
Proof.
  unfold within. intros H. apply andb_prop in H as [H _].
  destruct lo; [by apply Z.leb_le | done].
Qed.

Lemma within_upper lo hi (k : Z) :
  within lo hi k = true -> match hi with Some b => k < b | None => True end.
Proof.
  unfold within. intros H. apply andb_prop in H as [_ H].
  destruct hi; [by apply Z.ltb_lt | done].
Qed.

Lemma keys_within_weaken lo hi lo' hi' (s : list cbt_entry_t) :
  keys_within lo' hi' s -> lower_le lo lo' -> upper_le hi' hi ->
  keys_within lo hi s.
Proof.
  intros H Hlo Hhi. eapply Forall_impl; [exact H |].
  intros x Hx. cbn in Hx. by eapply within_weaken.
Qed.

Lemma lower_le_refl lo : lower_le lo lo.
Proof. destruct lo; cbn; lia. Qed.

Lemma upper_le_refl hi : upper_le hi hi.
Proof. destruct hi; cbn; lia. Qed.

Lemma forallb_within_keys lo hi (s : list cbt_entry_t) :
  forallb (within lo hi) (map key s) = true -> keys_within lo hi s.
Proof.
  induction s as [|x s IH]; cbn; intros H; [constructor |].
  apply andb_prop in H as [Hx H]. apply Forall_cons. split; [done | by apply IH].
Qed.

Lemma kids_keys_within (inv : option Z -> option Z -> cbt_node_t -> bool)
    (lo0 hi : option Z) (C : list (option cbt_node_t)) :
  Forall (fun c => forall lo' hi', spare_opt (inv lo' hi') c = true ->
                   keys_within lo' hi' (inorder_opt c)) C ->
  forall lo ks,
    kids_inv inv hi C lo ks = true -> lower_le lo0 lo ->
    Forall (fun k => within lo0 hi k = true) ks ->
    keys_within lo0 hi (concat (map inorder_opt C)).
Proof.
  induction 1 as [|c C Hc _ IH]; intros lo ks Hk Hlo Hks; cbn [kids_inv] in Hk;
    [done |].
  destruct c as [c|]; [| done].
  cbn [map concat]. apply Forall_app.
  destruct ks as [|k ks].
  - apply andb_prop in Hk as [Hinv Hrest]. split.
    + eapply keys_within_weaken; [by apply Hc | done | apply upper_le_refl].
    + rewrite concat_inorder_empty by done. constructor.
  - apply andb_prop in Hk as [Hinv Hrest].
    apply Forall_cons in Hks as [Hk0 Hks]. split.
    + eapply keys_within_weaken; [by apply Hc | done |].
      apply within_upper in Hk0. destruct hi; cbn; [lia | done].
    + apply (IH (Some k) ks); [done | | done].
      apply within_lower in Hk0. destruct lo0; cbn; [lia | done].
Qed.

Lemma node_inv_keys_within (n : Z) (fuel : nat) :
  forall nd lo hi,
    (height nd <= fuel)%nat -> node_inv n lo hi nd = true ->
    keys_within lo hi (inorder nd).
Proof.
  induction fuel as [|fuel IH]; intros nd lo hi Hh Hinv.
  - rewrite height_children in Hh. lia.
  - destruct nd as [E C l]. rewrite node_inv_Node in Hinv.
    apply andb_prop in Hinv as [Hinv Hkids].
    apply andb_prop in Hinv as [Hinv Hks].
    apply andb_prop in Hinv as [Hinv Hasc].
    apply andb_prop in Hinv as [Hinv Hok].
    unfold keys_within. rewrite inorder_concat. cbn [children entry].
    apply Forall_app. split; [| by apply forallb_within_keys].
    apply orb_prop in Hkids as [Hleaf | Hkids].
    + rewrite <- (take_drop (S (Z.to_nat l)) C), concat_inorder_app.
      rewrite (concat_inorder_empty _ Hleaf).
      rewrite concat_inorder_empty; [constructor |].
      by apply (count_ok_children_tail (Node E C l)).
    + eapply (kids_keys_within (node_inv n) lo hi C); [| exact Hkids | | ].
      * apply Forall_lookup.
        intros i [c|] Hi lo' hi' Hc; cbn [spare_opt inorder_opt] in *; [| constructor].
        apply IH; [| done].
        apply heights_lookup in Hi. cbn [height_opt] in Hi.
        rewrite height_Node in Hh. lia.
      * apply lower_le_refl.
      * clear -Hks. induction (map key (populated E)) as [|k ks IHk];
          cbn in *; [constructor |].
        apply andb_prop in Hks as [? ?]. constructor; auto.
Qed.

(** ** Sorted insertion *)

Lemma place_prefix (e : cbt_entry_t) (P S : list cbt_entry_t) :
  Forall (fun x => key x <= key e) P -> place e (P ++ S) = P ++ place e S.
Proof.
  induction 1 as [|x P Hx _ IH]; cbn [app place]; [done |].
  destruct (Z.ltb_spec (key e) (key x)); [lia |]. by rewrite IH.
Qed.

Lemma place_suffix (e : cbt_entry_t) (A S : list cbt_entry_t) :
  (S = [] \/ exists y S', S = y :: S' /\ key e < key y) ->
  place e (A ++ S) = place e A ++ S.
Proof.
  intros HS. induction A as [|x A IH]; cbn [app place].
  - destruct HS as [-> | (y & S' & -> & Hy)]; [done |].
    cbn [place]. destruct (Z.ltb_spec (key e) (key y)); [done | lia].
  - destruct (key e <? key x); [done |]. by rewrite IH.
Qed.

Lemma In_place_keys (e : cbt_entry_t) (s : list cbt_entry_t) (lo hi : option Z) :
  forallb (within lo hi) (map key s) = true -> within lo hi (key e) = true ->
  forallb (within lo hi) (map key (place e s)) = true.
Proof.
  induction s as [|x s IH]; cbn [place map forallb]; intros Hs He.
  - by rewrite He.
  - apply andb_prop in Hs as [Hx Hs].
    destruct (key e <? key x); cbn [map forallb].
    + by rewrite He, Hx, Hs.
    + rewrite Hx. cbn [andb]. auto.
Qed.

Lemma within_at_pos (hi : option Z) (k : Z) (s : list cbt_entry_t) :
  forall lo0,
    within lo0 hi k = true ->
    within (lo_at lo0 (map key s) (pos k s)) (hi_at hi (map key s) (pos k s)) k
    = true.
Proof.
  induction s as [|x s IH]; intros lo0 Hk; cbn [map pos lo_at]; [done |].
  destruct (Z.ltb_spec k (key x)) as [Hlt|Hge]; cbn [lo_at].
  - unfold hi_at. cbn. unfold within in *.
    apply andb_prop in Hk as [Hk _]. rewrite Hk. by apply Z.ltb_lt.
  - unfold hi_at. cbn [lookup list_lookup]. fold (hi_at hi (map key s) (pos k s)).
    apply IH. unfold within in *. apply andb_prop in Hk as [_ Hk].
    rewrite Hk, andb_true_r. by apply Z.leb_le.
Qed.

Lemma interleave_head x xs es :
  interleave (x :: xs) es = x ++ interleave ([] :: xs) es.
Proof. destruct es; reflexivity. Qed.

Lemma kids_at_pos (inv : option Z -> option Z -> cbt_node_t -> bool)
    (hi : option Z) (k : Z) (T : list (option cbt_entry_t)) :
  (forall c lo' hi', inv lo' hi' c = true -> keys_within lo' hi' (inorder c)) ->
  populated T = [] ->
  forall (s : list cbt_entry_t) C lo,
    kids_inv inv hi C lo (map key s) = true ->
    exists child Pre Suf,
      C !! pos k s = Some (Some child)
      /\ inv (lo_at lo (map key s) (pos k s)) (hi_at hi (map key s) (pos k s)) child
         = true
      /\ (forall c',
            interleave (map inorder_opt (<[pos k s := Some c']> C))
              ((Some <$> s) ++ T)
            = Pre ++ inorder c' ++ Suf)
      /\ Forall (fun x => key x <= k) Pre
      /\ (Suf = [] \/ exists y Suf', Suf = y :: Suf' /\ k < key y)
      /\ (forall c',
            inv (lo_at lo (map key s) (pos k s))
                (hi_at hi (map key s) (pos k s)) c' = true ->
            kids_inv inv hi (<[pos k s := Some c']> C) lo (map key s) = true).
Proof.
  intros Hwithin HT.
  induction s as [|x s IH]; intros C lo Hk; cbn [map pos kids_inv] in *.
  - destruct C as [|[c|] cs]; cbn [kids_inv] in Hk; try done.
    apply andb_prop in Hk as [Hinv Hcs].
    exists c, [], []. cbn [lo_at]. unfold hi_at. cbn [lookup list_lookup].
    repeat split; try done.
    + intros c'. change (inorder c' ++ []) with (inorder_opt (Some c') ++ []).
      change (<[0%nat := Some c']> (Some c :: cs)) with (Some c' :: cs).
      cbn [map]. rewrite interleave_head.
      rewrite interleave_no_children;
        [by change ((Some <$> []) ++ T) with T; rewrite HT |].
      constructor; [done | by apply inorder_opt_empty].
    + by left.
    + intros c' Hc'. cbn. by rewrite Hc', Hcs.
  - destruct C as [|[c|] cs]; cbn [kids_inv] in Hk; try done.
    apply andb_prop in Hk as [Hinv Hcs].
    destruct (Z.ltb_spec k (key x)) as [Hlt|Hge].
    + exists c, [], (x :: interleave (map inorder_opt cs) ((Some <$> s) ++ T)).
      cbn [lo_at]. unfold hi_at. cbn [lookup list_lookup].
      repeat split; try done.
      * right. eauto.
      * intros c' Hc'. cbn. by rewrite Hc', Hcs.
    + destruct (IH cs (Some (key x)) Hcs)
        as (child & Pre & Suf & Hc & Hci & Hint & HPre & HSuf & Hrep).
      exists child, (inorder c ++ x :: Pre), Suf.
      cbn [lo_at]. unfold hi_at in *. cbn [lookup list_lookup].
      repeat split; try done.
      * intros c'.
        change (<[S (pos k s) := Some c']> (Some c :: cs))
          with (Some c :: <[pos k s := Some c']> cs).
        change ((Some <$> x :: s) ++ T) with (Some x :: (Some <$> s) ++ T).
        cbn [map]. rewrite interleave_cons. cbn [populated app inorder_opt].
        rewrite Hint. by rewrite <- !app_assoc.
      * apply Forall_app. split.
        -- pose proof (Hwithin c _ _ Hinv) as Hw.
           eapply Forall_impl; [exact Hw |]. intros y Hy. cbn in Hy.
           apply within_upper in Hy. lia.
        -- constructor; [lia | done].
      * intros c' Hc'. cbn. rewrite Hinv. cbn [andb]. by apply Hrep.
Qed.

Lemma count_ok_entry_form nd :
  count_ok nd = true -> len nd <= Z.of_nat (length (entry nd)) ->
  length (populated (entry nd)) = Z.to_nat (len nd)
  /\ entry nd
     = (Some <$> populated (entry nd)) ++ drop (Z.to_nat (len nd)) (entry nd)
  /\ populated (drop (Z.to_nat (len nd)) (entry nd)) = [].
Proof.
  intros Hok Hlen. pose proof (count_ok_len_nonneg nd Hok) as H0.
  pose proof (count_ok_entries_head nd (Z.to_nat (len nd)) Hok ltac:(lia)) as Hh.
  pose proof (count_ok_entries_tail nd (Z.to_nat (len nd)) Hok ltac:(lia)) as Ht.
  assert (Hpop : populated (entry nd)
                 = populated (take (Z.to_nat (len nd)) (entry nd))).
  { rewrite <- (take_drop (Z.to_nat (len nd)) (entry nd)) at 1.
    by rewrite populated_app, (populated_empty _ Ht), app_nil_r. }
  split; [| split].
  - rewrite Hpop, populated_length_full by done. rewrite length_take. lia.
  - rewrite Hpop, populated_slots_Some by done. by rewrite take_drop.
  - by apply populated_empty.
Qed.

Lemma get_next_node_index_pos nd (k n : Z) :
  count_ok nd = true -> len nd <= Z.of_nat (length (entry nd)) ->
  get_next_node_index nd k n = Done (Z.of_nat (pos k (populated (entry nd)))).
Proof.
  intros Hok Hlen.
  destruct (count_ok_entry_form nd Hok Hlen) as (Hs & HE & _).
  unfold get_next_node_index.
  set (s := populated (entry nd)) in *.
  assert (HE' : entry nd = [] ++ (Some <$> s) ++ drop (Z.to_nat (len nd)) (entry nd))
    by done.
  rewrite HE', <- Hs.
  by rewrite (next_index_from_sorted s [] _ k).
Qed.

Lemma node_inv_leaf_bounds (n : Z) lo hi ec cc (s : list cbt_entry_t) :
  Z.of_nat (length s) <= n - 1 ->
  ascending_from None (map key s) = true ->
  forallb (within lo hi) (map key s) = true ->
  node_inv n lo hi (leaf_node ec cc s) = true.
Proof.
  intros Hn Hasc Hks. unfold leaf_node. rewrite node_inv_Node.
  rewrite populated_app, populated_replicate, app_nil_r, populated_Some.
  rewrite Hasc, Hks.
  unfold count_ok. cbn [len entry children]. rewrite Nat2Z.id.
  rewrite take_app_length' by (by rewrite length_fmap).
  rewrite drop_app_length' by (by rewrite length_fmap).
  rewrite forallb_populated_Some, forallb_empty_replicate.
  rewrite take_replicate, drop_replicate, !forallb_empty_replicate.
  destruct (Z.leb_spec 0 (Z.of_nat (length s))); [| lia].
  destruct (Z.leb_spec (Z.of_nat (length s)) (n - 1)); [| lia].
  done.
Qed.

Section Sorted.

Context (entry_cap child_cap : Z -> nat).

Lemma bt_insert_helper_leaf fuel bt at_root ec cc (s : list cbt_entry_t) e :
  Z.of_nat (length s) < n bt - 1 -> (length s < ec)%nat -> (S (length s) < cc)%nat ->
  bt_insert_helper entry_cap child_cap (S fuel) bt at_root
    (Some (leaf_node ec cc s)) e
  = Done (InPlace (leaf_node ec cc (place e s))).
Proof.
  intros Hn Hec Hcc. pose proof (pos_le (key e) s) as Hp.
  cbn [bt_insert_helper]. unfold bt_insert_helper_body.
  assert (Hs : (if at_root
                then split_full_root entry_cap child_cap (leaf_node ec cc s) (n bt)
                else Done (Same (leaf_node ec cc s)))
               = Done (Same (leaf_node ec cc s))).
  { destruct at_root; [| done]. apply split_full_root_not_full.
    unfold is_full_node, leaf_node. cbn [len]. apply Z.eqb_neq. lia. }
  rewrite Hs.
  cbn [mbind result_bind]. rewrite get_next_node_index_leaf.
  cbn [mbind result_bind]. rewrite arr_get_nat.
  change (children (leaf_node ec cc s)) with (replicate cc (@None cbt_node_t)).
  rewrite lookup_replicate_2 by lia. cbn [mbind result_bind is_leaf].
  rewrite node_insert_entry_leaf by done. done.
Qed.

Lemma bt_insert_helper_sorted fuel :
  forall bt at_root nd e lo hi,
    node_inv (n bt) lo hi nd = true -> spare (n bt) nd = true ->
    within lo hi (key e) = true ->
    ~ In (key e) (map key (inorder nd)) ->
    (height nd <= fuel)%nat ->
    exists r,
      bt_insert_helper entry_cap child_cap fuel bt at_root (Some nd) e
      = Done (InPlace r)
      /\ inorder r = place e (inorder nd)
      /\ node_inv (n bt) lo hi r = true.
Proof.
  induction fuel as [|fuel IH]; intros bt at_root nd e lo hi Hinv Hsp Hk Hnin Hh.
  - rewrite height_children in Hh. lia.
  - pose proof Hsp as Hsp'.
    apply spare_facts in Hsp' as (Hok & Hn & HE & HC & Hch).
    pose proof (count_ok_len_nonneg nd Hok) as H0.
    destruct (count_ok_entry_form nd Hok ltac:(lia)) as (Hs & HEf & HT).
    pose proof (get_next_node_index_pos nd (key e) (n bt) Hok ltac:(lia)) as Hidx.
    destruct nd as [E C l]. cbn [entry children len] in *.
    rewrite node_inv_Node in Hinv.
    apply andb_prop in Hinv as [Hinv Hkids].
    apply andb_prop in Hinv as [Hinv Hks].
    apply andb_prop in Hinv as [Hinv Hasc].
    apply orb_prop in Hkids as [Hleaf | Hkids].
    + assert (Hall : forallb empty_slot C = true).
      { rewrite <- (take_drop (S (Z.to_nat l)) C), forallb_app, Hleaf.
        by apply (count_ok_children_tail (Node E C l)). }
      pose proof (count_ok_leaf_node (Node E C l) Hok Hall) as Hnd.
      cbn [entry children len] in Hnd. specialize (Hnd ltac:(lia)).
      rewrite Hnd in Hnin |- *. rewrite inorder_leaf_node in Hnin.
      exists (leaf_node (length E) (length C) (place e (populated E))).
      split; [| split].
      * apply bt_insert_helper_leaf; lia.
      * by rewrite !inorder_leaf_node.
      * apply node_inv_leaf_bounds.
        -- rewrite place_length. lia.
        -- by apply ascending_from_place.
        -- by apply In_place_keys.
    + destruct (kids_at_pos (node_inv (n bt)) hi (key e) (drop (Z.to_nat l) E))
        with (s := populated E) (C := C) (lo := lo)
        as (child & Pre & Suf & Hc & Hci & Hint & HPre & HSuf & Hrep);
        [| done | done |].
      { intros c lo' hi'. by apply (node_inv_keys_within (n bt) (height c)). }
      set (idx := pos (key e) (populated E)) in *.
      pose proof (pos_le (key e) (populated E)) as Hp. fold idx in Hp.
      pose proof (Hint child) as Hold. rewrite list_insert_id in Hold by done.
      rewrite <- HEf, <- inorder_Node with (l := l) in Hold.
      assert (Hget : arr_get C (Z.of_nat idx) = Done (Some child)).
      { apply arr_get_ok; [lia |]. by rewrite Nat2Z.id. }
      pose proof (Hch _ _ Hc) as Hcsp.
      destruct (body_child_not_full entry_cap child_cap bt at_root (Node E C l) e
                  (Z.of_nat idx) child) as [_ Hstep]; [| done | done | |].
      { intros _. unfold is_full_node. cbn [len]. apply Z.eqb_neq. lia. }
      { apply spare_facts in Hcsp as (_ & Hcn & _).
        unfold is_full_node. apply Z.eqb_neq. lia. }
      rewrite Hstep.
      destruct (IH bt false child e _ _ Hci Hcsp) as (c' & -> & Hio & Hci').
      { by apply within_at_pos. }
      { intros Hin. apply Hnin. rewrite Hold, !map_app, !in_app_iff. auto. }
      { apply heights_lookup in Hc. cbn [height_opt] in Hc.
        rewrite height_Node in Hh. lia. }
      cbn [mbind result_bind children set_children]. rewrite Nat2Z.id.
      eexists. split; [done |].
      change (set_children (Node E C l) (<[idx := Some c']> C))
        with (Node E (<[idx := Some c']> C) l).
      split.
      * rewrite Hold, inorder_Node.
        pose proof (Hint c') as Hnew. rewrite <- HEf in Hnew. rewrite Hnew, Hio.
        rewrite place_prefix by done. by rewrite place_suffix.
      * rewrite node_inv_Node.
        assert (Hcnt : count_ok (Node E (<[idx := Some c']> C) l)
                       = count_ok (Node E C l)).
        { unfold count_ok. cbn [len entry children].
          by rewrite drop_insert_lt by lia. }
        rewrite Hcnt, Hinv, Hasc, Hks, (Hrep c' Hci'). by rewrite orb_true_r.
Qed.

(** X12: on a tree that satisfies the ordering invariant and in which no
    node is full, inserting a key the tree does not hold goes down to one
    leaf without a split, stores the entry there at the place its key gives
    it in the in-order sequence of the tree, and the resulting tree satisfies
    the ordering invariant again; [max_key] and [min_key] are not touched. *)
Theorem insert_without_split_sorted fuel bt nd e :
  root bt = Some nd -> tree_inv bt = true -> spare (n bt) nd = true ->
  ~ In (key e) (map key (inorder nd)) -> (height nd <= fuel)%nat ->
  exists r,
    insert entry_cap child_cap fuel bt e
    = Done (Tree (Some r) (n bt) (max_key bt) (min_key bt))
    /\ inorder r = place e (inorder nd)
    /\ tree_inv (Tree (Some r) (n bt) (max_key bt) (min_key bt)) = true.
Proof.
  intros Hroot Hinv Hsp Hnin Hh. unfold tree_inv in Hinv. rewrite Hroot in Hinv.
  unfold insert. rewrite Hroot.
  destruct (bt_insert_helper_sorted fuel bt true nd e None None Hinv Hsp)
    as (r & -> & Hio & Hr); [done | done | done |].
  cbn [mbind result_bind commit]. exists r. by repeat split.
Qed.

End Sorted.

(** ** The properties above on concrete nodes and trees *)

Lemma bt_split_child_children_conserved_witness :
  exists left right promoted,
    bt_split_child loop_entry_cap loop_child_cap full4 4
    = Done (left, Some right, promoted)
    /\ populated (children left) ++ populated (children right)
       = populated (children full4).
Proof.
  apply (bt_split_child_children_conserved loop_entry_cap loop_child_cap full4 4).
  - lia.
  - reflexivity.
  - reflexivity.
  - apply full4_room.
  - apply loop_alloc_ok.
Defined.

Lemma bt_split_child_entry_counts_witness :
  exists left right promoted,
    bt_split_child loop_entry_cap loop_child_cap full4 4
    = Done (left, Some right, promoted)
    /\ Z.of_nat (length (populated (entry left))) = borrow_n 4 - 1
    /\ Z.of_nat (length (populated (entry right))) = 4 / 2 - 1
    /\ len right = Z.of_nat (length (populated (entry right))) + 1.
Proof.
  apply (bt_split_child_entry_counts loop_entry_cap loop_child_cap full4 4).
  - lia.
  - reflexivity.
  - reflexivity.
  - apply full4_room.
  - apply loop_alloc_ok.
Defined.

Lemma bt_split_child_separates_witness :
  exists left right promoted,
    bt_split_child loop_entry_cap loop_child_cap full4 4
    = Done (left, Some right, Some promoted)
    /\ (forall x, In x (populated (entry left)) -> key x < key promoted)
    /\ (forall y, In y (populated (entry right)) -> key promoted < key y).
Proof.
  apply (bt_split_child_separates loop_entry_cap loop_child_cap full4 4).
  - lia.
  - reflexivity.
  - reflexivity.
  - apply full4_room.
  - apply loop_alloc_ok.
  - reflexivity.
Defined.

Lemma bt_split_child_inorder_witness :
  exists left right promoted,
    bt_split_child loop_entry_cap loop_child_cap full4 4
    = Done (left, Some right, Some promoted)
    /\ inorder left ++ promoted :: inorder right = inorder full4.
Proof.
  apply (bt_split_child_inorder loop_entry_cap loop_child_cap full4 4).
  - lia.
  - reflexivity.
  - reflexivity.
  - apply full4_room.
  - apply loop_alloc_ok.
Defined.

Lemma split_full_root_inorder_witness :
  exists new_root,
    split_full_root loop_entry_cap loop_child_cap full4 4 = Done (Grown new_root)
    /\ inorder new_root = inorder full4.
Proof.
  apply (split_full_root_inorder loop_entry_cap loop_child_cap full4 4).
  - lia.
  - reflexivity.
  - reflexivity.
  - apply full4_room.
  - apply loop_alloc_ok.
Defined.

Lemma split_full_root_height_witness :
  exists new_root,
    split_full_root loop_entry_cap loop_child_cap full4 4 = Done (Grown new_root)
    /\ height new_root = S (height full4).
Proof.
  apply (split_full_root_height loop_entry_cap loop_child_cap full4 4).
  - lia.
  - reflexivity.
  - reflexivity.
  - apply full4_room.
  - apply loop_alloc_ok.
Defined.

Lemma insert_height_step_witness :
  le (height_opt (root (Tree (Some (leaf3 [5; 10])) 3 10 10)))
     (S (height_opt (root tree_single))).
Proof.
  apply (insert_height_step loop_entry_cap loop_child_cap 3 tree_single
           (entry_of 5) (Tree (Some (leaf3 [5; 10])) 3 10 10)).
  - cbn. lia.
  - apply loop_alloc_ok.
  - reflexivity.
Defined.

Lemma bt_insert_helper_body_child_not_full_witness :
  bt_insert_helper_body loop_entry_cap loop_child_cap tree_left_full true
    root_left_full (entry_of 40)
  = Done (Descend root_left_full 1)
  /\ forall fuel,
       bt_insert_helper loop_entry_cap loop_child_cap (S fuel) tree_left_full true
         (Some root_left_full) (entry_of 40)
       = (eff ← bt_insert_helper loop_entry_cap loop_child_cap fuel tree_left_full
                  false (Some (leaf3 [30])) (entry_of 40);
          match eff with
          | InPlace c' =>
              Done (InPlace (set_children root_left_full
                               (<[Z.to_nat 1 := Some c']> (children root_left_full))))
          | Reset r k => Done (Reset r k)
          end).
Proof.
  apply (bt_insert_helper_body_child_not_full loop_entry_cap loop_child_cap
           tree_left_full true root_left_full (entry_of 40) 1 (leaf3 [30])).
  - intros _. reflexivity.
  - reflexivity.
  - reflexivity.
  - reflexivity.
Defined.

Lemma insert_first_witness :
  exists r,
    insert loop_entry_cap loop_child_cap 0 tree_empty (entry_of 7)
    = Done (Tree (Some r) (n tree_empty) (key (entry_of 7)) (key (entry_of 7)))
    /\ inorder r = [entry_of 7] /\ len r = 1 /\ height r = 1%nat
    /\ tree_inv (Tree (Some r) (n tree_empty) (key (entry_of 7)) (key (entry_of 7)))
       = true.
Proof.
  apply (insert_first loop_entry_cap loop_child_cap 0 tree_empty (entry_of 7)).
  - cbn. lia.
  - apply loop_alloc_ok.
  - reflexivity.
Defined.

Lemma insert_single_node_witness :
  exists r,
    insert loop_entry_cap loop_child_cap 1 tree_single (entry_of 5)
    = Done (Tree (Some r) (n tree_single) (max_key tree_single) (min_key tree_single))
    /\ inorder r = place (entry_of 5) (inorder (leaf3 [10]))
    /\ len r = len (leaf3 [10]) + 1 /\ height r = 1%nat.
Proof.
  apply (insert_single_node loop_entry_cap loop_child_cap 0 tree_single
           (leaf3 [10]) (entry_of 5)).
  - reflexivity.
  - reflexivity.
  - reflexivity.
  - cbn. lia.
  - cbn. lia.
  - cbn. lia.
Defined.

Lemma insert_without_split_witness :
  exists r,
    insert loop_entry_cap loop_child_cap 2 tree_spare (entry_of 25)
    = Done (Tree (Some r) (n tree_spare) (max_key tree_spare) (min_key tree_spare))
    /\ Permutation (inorder r) (entry_of 25 :: inorder root_spare).
Proof.
  apply (insert_without_split loop_entry_cap loop_child_cap 2 tree_spare
           root_spare (entry_of 25)).
  - reflexivity.
  - reflexivity.
  - cbn. lia.
Defined.

Lemma insert_without_split_sorted_witness :
  exists r,
    insert loop_entry_cap loop_child_cap 2 tree_spare (entry_of 25)
    = Done (Tree (Some r) (n tree_spare) (max_key tree_spare) (min_key tree_spare))
    /\ inorder r = place (entry_of 25) (inorder root_spare)
    /\ tree_inv (Tree (Some r) (n tree_spare) (max_key tree_spare)
                   (min_key tree_spare)) = true.
Proof.
  apply (insert_without_split_sorted loop_entry_cap loop_child_cap 2 tree_spare
           root_spare (entry_of 25)).
  - reflexivity.
  - reflexivity.
  - reflexivity.
  - vm_compute. lia.
  - cbn. lia.
Defined.
